(** * CMA-ES transformation policies of ensmallen

    A shallow embedding of
    [include/ensmallen_bits/cmaes/transformation_policies/boundary_box_constraint.hpp]
    and [empty_transformation.hpp], with [MatType = arma::mat].

    Numbers.  A [double] is modelled by an exact rational ([Q]): sums,
    products and comparisons are the ideal ones, without rounding.  The two
    places where C++ leaves the ideal numbers are kept as explicit errors: a
    division whose divisor is zero ([DivByZero]; IEEE arithmetic would go on
    with an infinity or a NaN) and a conversion to [int] whose truncated value
    does not fit ([IntCastUB]; undefined behaviour in C++).  The element
    map is written a second time over binary64 floats ([Module Binary64]),
    where it is only evaluated: to replay, in IEEE arithmetic, the inputs on
    which the ideal model shows the code leaving its contract.

    Matrices.  An [arma::mat] is a record of its two dimensions and its
    column-major memory.  Element access [m(i,j)] is checked against the
    dimensions ([OutOfBounds]).  Indices are [size_t], and Armadillo's
    [uword] is taken to be as wide: the subtraction [n_rows - 1] wraps
    around modulo 2^64. *)

From Stdlib Require Import ZArith QArith Qabs Lia Lqa Bool List.
From Stdlib Require Import Floats Uint63.
From stdpp Require Import base list.

Local Open Scope Q_scope.

(** ** Results of fallible code *)

Inductive error : Set :=
| OutOfBounds   (* element access outside the matrix *)
| DivByZero     (* floating division by 0.0 *)
| IntCastUB     (* (int) of a value outside the range of int *)
| SizeMismatch  (* element-wise operation on matrices of different sizes *)
| NoElements.   (* arma::min of an object without elements *)

Inductive res (A : Type) : Type :=
| Ok (a : A)
| Err (e : error).
Arguments Ok {A} a.
Arguments Err {A} e.

Definition bind {A B} (c : res A) (k : A -> res B) : res B :=
  match c with
  | Ok a => k a
  | Err e => Err e
  end.

Notation "'do' x <- c ; k" := (bind c (fun x => k))
  (at level 10, x name, c at level 100, k at level 200).

(** A loop [for (a : l) { s = body(s, a); }] whose body may fail. *)
Fixpoint foldM {S A} (body : S -> A -> res S) (l : list A) (s : S) : res S :=
  match l with
  | [] => Ok s
  | a :: l' => do s' <- body s a ; foldM body l' s'
  end.

(** ** Scalars *)

(** [x < y] *)
Definition Qltb (x y : Q) : bool := negb (Qle_bool y x).

(** [std::min(a, b)] is [(b < a) ? b : a]. *)
Definition std_min (a b : Q) : Q := if Qltb b a then b else a.

Definition INT_MIN : Z := - 2 ^ 31.
Definition INT_MAX : Z := 2 ^ 31 - 1.

(** [(int) q]: truncation toward zero, defined only when the result fits. *)
Definition to_int (q : Q) : res Z :=
  let t := Z.quot (Qnum q) (Zpos (Qden q)) in
  if (INT_MIN <=? t)%Z && (t <=? INT_MAX)%Z then Ok t else Err IntCastUB.

(** [a / b] on doubles, for a divisor that is not a literal. *)
Definition fdiv (a b : Q) : res Q :=
  if Qeq_bool b 0 then Err DivByZero else Ok (a / b).

(** ** Matrices *)

Record mat : Type := Mat {
  n_rows : nat;
  n_cols : nat;
  mem : list Q
}.

(** The memory holds [n_rows * n_cols] elements. *)
Definition mat_wf (m : mat) : Prop :=
  length (mem m) = (n_rows m * n_cols m)%nat.

(** The default constructor: an empty 0x0 matrix. *)
Definition mat_empty : mat := Mat 0 0 [].

(** [MatType({ v1, ..., vn })]: a row vector. *)
Definition mat_of_list (l : list Q) : mat := Mat 1 (length l) l.

Definition SIZE_MAX : Z := 2 ^ 64 - 1.

Definition size_t_wrap (z : Z) : Z := z mod 2 ^ 64.

(** The dimensions of a matrix are [size_t] values. *)
Definition dims_size_t (m : mat) : Prop :=
  (Z.of_nat (n_rows m) <= SIZE_MAX)%Z /\ (Z.of_nat (n_cols m) <= SIZE_MAX)%Z.

(** The check of [Mat::operator()]: [i < n_rows] and [j < n_cols]. *)
Definition in_bounds (m : mat) (i j : Z) : bool :=
  (0 <=? i)%Z && (i <? Z.of_nat (n_rows m))%Z &&
  (0 <=? j)%Z && (j <? Z.of_nat (n_cols m))%Z.

(** Column-major storage: [mem[i + j * n_rows]]. *)
Definition offset (m : mat) (i j : Z) : nat :=
  Z.to_nat (i + j * Z.of_nat (n_rows m)).

(** [m(i, j)], read. *)
Definition mat_at (m : mat) (i j : Z) : res Q :=
  if in_bounds m i j then
    match mem m !! offset m i j with
    | Some v => Ok v
    | None => Err OutOfBounds
    end
  else Err OutOfBounds.

(** [m(i, j) = v]. *)
Definition mat_set (m : mat) (i j : Z) (v : Q) : res mat :=
  if in_bounds m i j then
    Ok (Mat (n_rows m) (n_cols m) (<[offset m i j := v]> (mem m)))
  else Err OutOfBounds.

(** ** EmptyTransformation *)

Module EmptyTransformation.

(** [MatType Transform(const MatType& x) { return x; }] *)
Definition Transform (x : mat) : mat := x.

(** [elem_type initialStepSize() { return 1; }] *)
Definition initialStepSize : Q := 1.

End EmptyTransformation.

(** ** BoundaryBoxConstraint *)

Record BoundaryBoxConstraint : Type := BoundaryBox {
  upperBound : mat;
  lowerBound : mat
}.

(** [BoundaryBoxConstraint()] *)
Definition BoundaryBoxConstraint_default : BoundaryBoxConstraint :=
  BoundaryBox mat_empty mat_empty.

(** [BoundaryBoxConstraint(const MatType&, const MatType&)] *)
Definition BoundaryBoxConstraint_mat (lowerBound upperBound : mat)
  : BoundaryBoxConstraint :=
  BoundaryBox upperBound lowerBound.

(** [BoundaryBoxConstraint(const double, const double)] *)
Definition BoundaryBoxConstraint_scalar (lowerBound upperBound : Q)
  : BoundaryBoxConstraint :=
  BoundaryBox (mat_of_list [upperBound]) (mat_of_list [lowerBound]).

(** The quantities computed at lines 91-96 from one pair of bounds. *)
Record margins : Type := Margins {
  diff : Q; al : Q; au : Q; xlow : Q; xup : Q; r : Q
}.

Definition margins_of (lo up : Q) : margins :=
  let diff := (up - lo) / 2 in
  let al := std_min diff ((1 + Qabs lo) / 20) in
  let au := std_min diff ((1 + Qabs up) / 20) in
  let xlow := lo - 2 * al - diff in
  let xup := up + 2 * au + diff in
  let r := 2 * (2 * diff + al + au) in
  Margins diff al au xlow xup r.

(** Lines 99-102.  The cast applies to [xlow - y] alone: the quotient is
    [(double)(int)(xlow - y) / r]. *)
Definition shift_up (xlow r y : Q) : res Q :=
  if Qltb y xlow then
    do k <- to_int (xlow - y) ;
    do q <- fdiv (inject_Z k) r ;
    Ok (y + r * (1 + q))
  else Ok y.

(** Lines 103-106. *)
Definition shift_down (xup r y : Q) : res Q :=
  if Qltb xup y then
    do k <- to_int (y - xup) ;
    do q <- fdiv (inject_Z k) r ;
    Ok (y - r * (1 + q))
  else Ok y.

(** Lines 107-110. *)
Definition reflect_lower (lo al y : Q) : Q :=
  if Qltb y (lo - al) then y + 2 * (lo - al - y) else y.

(** Lines 111-114. *)
Definition reflect_upper (up au y : Q) : Q :=
  if Qltb (up + au) y then y - 2 * (y - up - au) else y.

(** Lines 119-121. *)
Definition smooth_lower (lo al y : Q) : res Q :=
  do q <- fdiv ((y - (lo - al)) * (y - (lo - al)) / 4) al ;
  Ok (lo + q).

(** Lines 125-127. *)
Definition smooth_upper (up au y : Q) : res Q :=
  do q <- fdiv ((y - (up + au)) * (y - (up + au)) / 4) au ;
  Ok (up - q).

(** Lines 117-128. *)
Definition boundary_transformation (lo up al au y : Q) : res Q :=
  if Qltb y (lo + al) then smooth_lower lo al y
  else if Qltb (up - au) y then smooth_upper up au y
  else Ok y.

(** Lines 99-114: the two shifts, then the two reflections. *)
Definition shift_into_preimage (lo up : Q) (y : Q) : res Q :=
  let m := margins_of lo up in
  do y1 <- shift_up (xlow m) (r m) y ;
  do y2 <- shift_down (xup m) (r m) y1 ;
  Ok (reflect_upper up (au m) (reflect_lower lo (al m) y2)).

(** The body of the inner loop for one element [y] whose bounds are [lo]
    and [up]. *)
Definition Transform_elem (lo up : Q) (y : Q) : res Q :=
  let m := margins_of lo up in
  do y4 <- shift_into_preimage lo up y ;
  boundary_transformation lo up (al m) (au m) y4.

(** Lines 86 and 89: [(i < n) ? i : (n - 1)] on [size_t]. *)
Definition bound_index (i n : nat) : Z :=
  if (i <? n)%nat then Z.of_nat i else size_t_wrap (Z.of_nat n - 1).

(** One iteration of the inner loop: lines 89-128 at [(i, j)]. *)
Definition Transform_cell (b : BoundaryBoxConstraint) (i : nat)
    (y : mat) (j : nat) : res mat :=
  let Bi := bound_index i (n_rows (lowerBound b)) in
  let Bj := bound_index j (n_cols (lowerBound b)) in
  do up <- mat_at (upperBound b) Bi Bj ;
  do lo <- mat_at (lowerBound b) Bi Bj ;
  do y0 <- mat_at y (Z.of_nat i) (Z.of_nat j) ;
  do v <- Transform_elem lo up y0 ;
  mat_set y (Z.of_nat i) (Z.of_nat j) v.

(** One iteration of the outer loop: lines 86-129 at row [i]. *)
Definition Transform_row (b : BoundaryBoxConstraint) (n_cols_x : nat)
    (y : mat) (i : nat) : res mat :=
  foldM (Transform_cell b i) (seq 0 n_cols_x) y.

(** [BoundaryBoxConstraint::Transform] *)
Definition Transform (b : BoundaryBoxConstraint) (x : mat) : res mat :=
  foldM (Transform_row b (n_cols x)) (seq 0 (n_rows x)) x.

(** The value the loop body computes for the element [v] at [(i, j)]. *)
Definition cell_value (b : BoundaryBoxConstraint) (i j : nat) (v : Q) : res Q :=
  let Bi := bound_index i (n_rows (lowerBound b)) in
  let Bj := bound_index j (n_cols (lowerBound b)) in
  do up <- mat_at (upperBound b) Bi Bj ;
  do lo <- mat_at (lowerBound b) Bi Bj ;
  Transform_elem lo up v.

(** The index pairs in the order in which the two loops visit them. *)
Definition cells (rows cols : nat) : list (nat * nat) :=
  i ← seq 0 rows; (pair i) <$> seq 0 cols.

(** [m(i, j)] at indices that are loop counters. *)
Definition get (m : mat) (i j : nat) : res Q :=
  mat_at m (Z.of_nat i) (Z.of_nat j).

(** [A - B], element-wise; the sizes must agree. *)
Definition mat_sub (a b : mat) : res mat :=
  if (n_rows a =? n_rows b)%nat && (n_cols a =? n_cols b)%nat then
    Ok (Mat (n_rows a) (n_cols a) (zip_with Qminus (mem a) (mem b)))
  else Err SizeMismatch.

(** [op_min::direct_min]: a running minimum, replaced when [x < min]. *)
Definition direct_min (v : Q) (l : list Q) : Q :=
  fold_left (fun acc x => if Qltb x acc then x else acc) l v.

(** The memory of column [j] ([colptr(j)], [n_rows] elements). *)
Definition column (m : mat) (j : nat) : list Q :=
  take (n_rows m) (drop (j * n_rows m) (mem m)).

(** The minimum of column [j] ([op_min::direct_min] on [colptr(j)]). *)
Definition col_min (m : mat) (j : nat) : Q :=
  match column m j with
  | v :: l => direct_min v l
  | [] => 0
  end.

(** [arma::min(M)] of a matrix: the row vector of the minima of the columns
    (empty when [M] has no rows). *)
Definition arma_min_cols (m : mat) : mat :=
  if (n_rows m =? 0)%nat then Mat 0 (n_cols m) []
  else Mat 1 (n_cols m) (col_min m <$> seq 0 (n_cols m)).

(** [arma::min(V)] of a vector: its smallest element. *)
Definition arma_min_vec (m : mat) : res Q :=
  match mem m with
  | [] => Err NoElements
  | v :: l => Ok (direct_min v l)
  end.

(** [BoundaryBoxConstraint::initialStepSize] *)
Definition initialStepSize (b : BoundaryBoxConstraint) : res Q :=
  do d <- mat_sub (upperBound b) (lowerBound b) ;
  do m <- arma_min_vec (arma_min_cols d) ;
  Ok ((3 # 10) * m).

(** ** The element map in binary64

    Lines 91-128 once more, over the kernel's binary64 floats: the
    arithmetic of [double], rounding included.  A division by zero yields
    an infinity or a NaN as in IEEE 754; only the cast to [int] can fail. *)

Module Binary64.

Local Open Scope float_scope.

(** [std::min(a, b)] is [(b < a) ? b : a]. *)
Definition std_min (a b : float) : float := if b <? a then b else a.

(** [(int) x]: truncation toward zero, defined only when the result fits. *)
Definition to_int (x : float) : option Z :=
  match Prim2SF x with
  | S754_zero _ => Some 0%Z
  | S754_finite s m e =>
      let a := match e with
               | Zneg p => (Zpos m / 2 ^ Zpos p)%Z
               | _ => (Zpos m * 2 ^ e)%Z
               end in
      let t := if s then (- a)%Z else a in
      if ((INT_MIN <=? t)%Z && (t <=? INT_MAX)%Z)%bool then Some t else None
  | _ => None
  end.

(** [(double) k] of an [int]: exact. *)
Definition of_int (k : Z) : float :=
  if (k <? 0)%Z then - of_uint63 (Uint63.of_Z (- k))
  else of_uint63 (Uint63.of_Z k).

Definition shift_up (xlow r y : float) : option float :=
  if y <? xlow then
    match to_int (xlow - y) with
    | Some k => Some (y + r * (1 + of_int k / r))
    | None => None
    end
  else Some y.

Definition shift_down (xup r y : float) : option float :=
  if xup <? y then
    match to_int (y - xup) with
    | Some k => Some (y - r * (1 + of_int k / r))
    | None => None
    end
  else Some y.

Definition reflect_lower (lo al y : float) : float :=
  if y <? lo - al then y + 2 * (lo - al - y) else y.

Definition reflect_upper (up au y : float) : float :=
  if up + au <? y then y - 2 * (y - up - au) else y.

Definition boundary_transformation (lo up al au y : float) : float :=
  if y <? lo + al then lo + (y - (lo - al)) * (y - (lo - al)) / 4 / al
  else if up - au <? y then up - (y - (up + au)) * (y - (up + au)) / 4 / au
  else y.

Definition shift_into_preimage (lo up y : float) : option float :=
  let diff := (up - lo) / 2 in
  let al := std_min diff ((1 + abs lo) / 20) in
  let au := std_min diff ((1 + abs up) / 20) in
  let xlow := lo - 2 * al - diff in
  let xup := up + 2 * au + diff in
  let r := 2 * (2 * diff + al + au) in
  match shift_up xlow r y with
  | Some y1 =>
      match shift_down xup r y1 with
      | Some y2 => Some (reflect_upper up au (reflect_lower lo al y2))
      | None => None
      end
  | None => None
  end.

Definition Transform_elem (lo up y : float) : option float :=
  let diff := (up - lo) / 2 in
  let al := std_min diff ((1 + abs lo) / 20) in
  let au := std_min diff ((1 + abs up) / 20) in
  match shift_into_preimage lo up y with
  | Some y4 => Some (boundary_transformation lo up al au y4)
  | None => None
  end.

End Binary64.

(** The errors that arithmetic can raise. *)
Definition arith_error (e : error) : Prop := e = DivByZero \/ e = IntCastUB.

(** * Properties *)

(** ** The error monad and loops *)

Lemma bind_Ok {A B} (c : res A) (k : A -> res B) (v : B) :
  bind c k = Ok v <-> exists a, c = Ok a /\ k a = Ok v.
Proof.
  destruct c as [a|e]; simpl; split.
  - intros H; exists a; auto.
  - intros (a' & Ha & Hk); congruence.
  - discriminate.
  - intros (a' & Ha & _); discriminate.
Qed.

Lemma bind_Err {A B} (c : res A) (k : A -> res B) (e : error) :
  bind c k = Err e <-> c = Err e \/ exists a, c = Ok a /\ k a = Err e.
Proof.
  destruct c as [a|e']; simpl; split.
  - intros H; right; exists a; auto.
  - intros [H|(a' & Ha & Hk)]; [discriminate|]. injection Ha as ->; exact Hk.
  - intros H; left; congruence.
  - intros [H|(a' & Ha & _)]; congruence.
Qed.

Lemma foldM_app {S A} (body : S -> A -> res S) (l1 l2 : list A) (s : S) :
  foldM body (l1 ++ l2) s = do s' <- foldM body l1 s ; foldM body l2 s'.
Proof.
  revert s; induction l1 as [|a l1 IH]; intros s; simpl; [reflexivity|].
  destruct (body s a); simpl; auto.
Qed.

(** Two nested loops are one loop over the pairs of their counters. *)
Lemma foldM_nested {S} (body : nat -> S -> nat -> res S) (rows cols : list nat) (s : S) :
  foldM (fun s i => foldM (body i) cols s) rows s
  = foldM (fun s p => body p.1 s p.2) (i ← rows; (pair i) <$> cols) s.
Proof.
  revert s; induction rows as [|i rows IH]; intros s; [reflexivity|].
  change ((i :: rows) ≫= (fun i => pair i <$> cols))
    with ((pair i <$> cols) ++ (rows ≫= (fun i => pair i <$> cols))).
  rewrite foldM_app. simpl.
  assert (E : foldM (fun s p => body p.1 s p.2) (pair i <$> cols) s
              = foldM (body i) cols s).
  { clear. revert s. induction cols as [|j cols IHc]; intros s; simpl; [reflexivity|].
    destruct (body i s j); simpl; auto. }
  rewrite E. destruct (foldM (body i) cols s); simpl; auto.
Qed.

Lemma elem_of_cells (rows cols i j : nat) :
  (i, j) ∈ cells rows cols <-> (i < rows)%nat /\ (j < cols)%nat.
Proof.
  unfold cells. rewrite list_elem_of_bind. split.
  - intros (i' & Hj & Hi). apply list_elem_of_fmap in Hj as (j' & Heq & Hj).
    inversion Heq; subst. apply elem_of_seq in Hi, Hj. lia.
  - intros [Hi Hj]. exists i. split.
    + apply list_elem_of_fmap. exists j. split; [reflexivity|]. apply elem_of_seq. lia.
    + apply elem_of_seq. lia.
Qed.

Lemma NoDup_cells (rows cols : nat) : NoDup (cells rows cols).
Proof.
  unfold cells. apply NoDup_bind.
  - intros i1 i2 p _ _ H1 H2.
    apply list_elem_of_fmap in H1 as (j1 & -> & _).
    apply list_elem_of_fmap in H2 as (j2 & Heq & _). congruence.
  - intros i _. apply NoDup_fmap_2; [|apply NoDup_seq].
    intros j1 j2 Heq. congruence.
  - apply NoDup_seq.
Qed.

(** ** Element access *)

Lemma offset_nat (m : mat) (i j : nat) :
  offset m (Z.of_nat i) (Z.of_nat j) = (i + j * n_rows m)%nat.
Proof. unfold offset. rewrite <- Nat2Z.inj_mul, <- Nat2Z.inj_add. apply Nat2Z.id. Qed.

Lemma in_bounds_nat (m : mat) (i j : nat) :
  in_bounds m (Z.of_nat i) (Z.of_nat j) = true <->
  (i < n_rows m)%nat /\ (j < n_cols m)%nat.
Proof.
  unfold in_bounds. rewrite !andb_true_iff, !Z.leb_le, !Z.ltb_lt. lia.
Qed.

Lemma offset_lt (m : mat) (i j : nat) :
  mat_wf m -> (i < n_rows m)%nat -> (j < n_cols m)%nat ->
  (i + j * n_rows m < length (mem m))%nat.
Proof. unfold mat_wf. intros -> Hi Hj. nia. Qed.

Lemma offset_inj (n i j i' j' : nat) :
  (i < n)%nat -> (i' < n)%nat ->
  (i + j * n)%nat = (i' + j' * n)%nat -> i = i' /\ j = j'.
Proof. intros Hi Hi' E. assert (j = j') by nia. subst. lia. Qed.

Lemma mat_at_Err (m : mat) (i j : Z) (e : error) :
  mat_at m i j = Err e -> e = OutOfBounds.
Proof.
  unfold mat_at. destruct (in_bounds m i j); [|congruence].
  destruct (mem m !! offset m i j); congruence.
Qed.

Lemma mat_at_in_bounds (m : mat) (i j : Z) :
  mat_wf m -> in_bounds m i j = true -> exists v, mat_at m i j = Ok v.
Proof.
  intros Hwf Hb. unfold mat_at. rewrite Hb.
  destruct (mem m !! offset m i j) as [v|] eqn:E; [eauto|].
  exfalso. apply lookup_ge_None in E. unfold in_bounds in Hb.
  rewrite !andb_true_iff, !Z.leb_le, !Z.ltb_lt in Hb.
  unfold offset, mat_wf in *. nia.
Qed.

Lemma mat_at_Ok_in_bounds (m : mat) (i j : Z) (v : Q) :
  mat_at m i j = Ok v -> in_bounds m i j = true.
Proof. unfold mat_at. destruct (in_bounds m i j); congruence. Qed.

Lemma get_Ok (m : mat) (i j : nat) :
  mat_wf m -> (i < n_rows m)%nat -> (j < n_cols m)%nat ->
  exists v, get m i j = Ok v.
Proof. intros. apply mat_at_in_bounds; [assumption|]. apply in_bounds_nat; auto. Qed.

Lemma get_Ok_inv (m : mat) (i j : nat) (v : Q) :
  get m i j = Ok v -> (i < n_rows m)%nat /\ (j < n_cols m)%nat.
Proof. intros H. apply in_bounds_nat. eapply mat_at_Ok_in_bounds, H. Qed.

Lemma mat_set_Ok (m : mat) (i j : nat) (v : Q) :
  (i < n_rows m)%nat -> (j < n_cols m)%nat ->
  mat_set m (Z.of_nat i) (Z.of_nat j) v
  = Ok (Mat (n_rows m) (n_cols m) (<[(i + j * n_rows m)%nat := v]> (mem m))).
Proof.
  intros Hi Hj. unfold mat_set.
  rewrite (proj2 (in_bounds_nat m i j)) by auto. now rewrite offset_nat.
Qed.

Lemma mat_set_dims (m m' : mat) (i j : Z) (v : Q) :
  mat_set m i j v = Ok m' ->
  n_rows m' = n_rows m /\ n_cols m' = n_cols m /\ (mat_wf m -> mat_wf m').
Proof.
  unfold mat_set. destruct (in_bounds m i j); [|discriminate].
  intros [= <-]. unfold mat_wf. simpl. rewrite length_insert. auto.
Qed.

Lemma get_set_same (m m' : mat) (i j : nat) (v : Q) :
  mat_wf m -> mat_set m (Z.of_nat i) (Z.of_nat j) v = Ok m' -> get m' i j = Ok v.
Proof.
  intros Hwf Hs. unfold mat_set in Hs.
  destruct (in_bounds m _ _) eqn:Hb; [|discriminate]. injection Hs as <-.
  pose proof Hb as Hb'. apply in_bounds_nat in Hb' as [Hi Hj].
  unfold get, mat_at. unfold in_bounds in *. simpl. rewrite Hb.
  unfold offset at 1. simpl. fold (offset m (Z.of_nat i) (Z.of_nat j)).
  rewrite list_lookup_insert_eq; [reflexivity|].
  rewrite offset_nat. now apply offset_lt.
Qed.

Lemma get_set_other (m m' : mat) (i j i' j' : nat) (v : Q) :
  mat_set m (Z.of_nat i) (Z.of_nat j) v = Ok m' -> (i, j) <> (i', j') ->
  get m' i' j' = get m i' j'.
Proof.
  intros Hs Hne. unfold mat_set in Hs.
  destruct (in_bounds m _ _) eqn:Hb; [|discriminate]. injection Hs as <-.
  apply in_bounds_nat in Hb as [Hi Hj].
  unfold get, mat_at. unfold in_bounds. simpl.
  fold (in_bounds m (Z.of_nat i') (Z.of_nat j')).
  destruct (in_bounds m (Z.of_nat i') (Z.of_nat j')) eqn:Hb'; [|reflexivity].
  apply in_bounds_nat in Hb' as [Hi' Hj'].
  unfold offset at 1 2. simpl. fold (offset m (Z.of_nat i) (Z.of_nat j)).
  fold (offset m (Z.of_nat i') (Z.of_nat j')).
  rewrite !offset_nat. rewrite list_lookup_insert_ne; [reflexivity|].
  intros E. apply offset_inj in E as [-> ->]; auto.
Qed.

(** ** The loops of [Transform] *)

Lemma Transform_cells (b : BoundaryBoxConstraint) (x : mat) :
  Transform b x
  = foldM (fun y p => Transform_cell b p.1 y p.2) (cells (n_rows x) (n_cols x)) x.
Proof.
  unfold Transform, Transform_row, cells.
  exact (foldM_nested (Transform_cell b) _ _ x).
Qed.

(** Once the element is read, an iteration computes [cell_value] and
    stores it. *)
Lemma Transform_cell_value (b : BoundaryBoxConstraint) (i j : nat) (y : mat) (v : Q) :
  get y i j = Ok v ->
  Transform_cell b i y j
  = do w <- cell_value b i j v ; mat_set y (Z.of_nat i) (Z.of_nat j) w.
Proof.
  intros Hv. unfold Transform_cell, cell_value, get in *.
  destruct (mat_at (upperBound b) _ _); simpl; [|reflexivity].
  destruct (mat_at (lowerBound b) _ _); simpl; [|reflexivity].
  rewrite Hv. reflexivity.
Qed.

Lemma Transform_cell_Ok (b : BoundaryBoxConstraint) (i j : nat) (y y' : mat) :
  mat_wf y -> Transform_cell b i y j = Ok y' ->
  exists v w, get y i j = Ok v /\ cell_value b i j v = Ok w /\
              mat_set y (Z.of_nat i) (Z.of_nat j) w = Ok y'.
Proof.
  intros Hwf H.
  assert (Hb : in_bounds y (Z.of_nat i) (Z.of_nat j) = true).
  { unfold Transform_cell in H.
    apply bind_Ok in H as (up & _ & H). apply bind_Ok in H as (lo & _ & H).
    apply bind_Ok in H as (y0 & Hy0 & _). eapply mat_at_Ok_in_bounds, Hy0. }
  destruct (mat_at_in_bounds y _ _ Hwf Hb) as [v Hv].
  rewrite (Transform_cell_value b i j y v Hv) in H.
  apply bind_Ok in H as (w & Hw & Hs). eauto.
Qed.

Section CellsLoop.

Variable b : BoundaryBoxConstraint.

Let step (y : mat) (p : nat * nat) : res mat := Transform_cell b p.1 y p.2.

(** The loop invariant, for a run that completes: the visited cells hold
    their [cell_value], the others are untouched. *)
Lemma cells_loop_Ok (ps : list (nat * nat)) (x y : mat) :
  mat_wf x -> NoDup ps -> foldM step ps x = Ok y ->
  n_rows y = n_rows x /\ n_cols y = n_cols x /\ mat_wf y /\
  (forall i j, (i, j) ∈ ps ->
     exists v w, get x i j = Ok v /\ cell_value b i j v = Ok w /\ get y i j = Ok w) /\
  (forall i j, (i, j) ∉ ps -> get y i j = get x i j).
Proof.
  revert x. induction ps as [|[i j] ps IH]; intros x Hwf Hnd H.
  - injection H as <-. repeat split; auto. intros i j Hin. inversion Hin.
  - simpl in H. apply bind_Ok in H as (x1 & Hcell & Hrest).
    apply Transform_cell_Ok in Hcell as (v & w & Hv & Hw & Hset); [|assumption].
    apply NoDup_cons in Hnd as [Hnotin Hnd].
    destruct (mat_set_dims _ _ _ _ _ Hset) as (Hr & Hc & Hwf1).
    destruct (IH x1 (Hwf1 Hwf) Hnd Hrest) as (Hr' & Hc' & Hwfy & Hdone & Hkeep).
    repeat split; try congruence.
    + intros i' j' Hin. apply elem_of_cons in Hin as [Heq|Hin].
      * injection Heq as -> ->. exists v, w. repeat split; auto.
        rewrite (Hkeep i j Hnotin). exact (get_set_same x x1 i j w Hwf Hset).
      * destruct (Hdone i' j' Hin) as (v' & w' & Hv' & Hw' & Hy').
        exists v', w'. repeat split; auto.
        rewrite <- Hv'. symmetry. eapply get_set_other; [exact Hset|].
        intros Heq. injection Heq as -> ->. contradiction.
    + intros i' j' Hnin. apply not_elem_of_cons in Hnin as [Hne Hnin].
      rewrite (Hkeep i' j' Hnin). eapply get_set_other; [exact Hset|].
      intros Heq. apply Hne. symmetry. exact Heq.
Qed.

(** A run that stops does so with the error of some cell's value. *)
Lemma cells_loop_Err (ps : list (nat * nat)) (x : mat) (e : error) :
  mat_wf x -> NoDup ps ->
  (forall i j, (i, j) ∈ ps -> (i < n_rows x)%nat /\ (j < n_cols x)%nat) ->
  foldM step ps x = Err e ->
  exists i j v, (i, j) ∈ ps /\ get x i j = Ok v /\ cell_value b i j v = Err e.
Proof.
  revert x. induction ps as [|[i j] ps IH]; intros x Hwf Hnd Hin H; [discriminate|].
  simpl in H. apply NoDup_cons in Hnd as [Hnotin Hnd].
  destruct (Hin i j) as [Hi Hj]; [left|].
  destruct (get_Ok x i j Hwf Hi Hj) as [v Hv].
  apply bind_Err in H as [H|(x1 & Hcell & Hrest)].
  - unfold step in H. simpl in H. rewrite (Transform_cell_value b i j x v Hv) in H.
    apply bind_Err in H as [H|(w & Hw & Hs)].
    + exists i, j, v. repeat split; auto. left.
    + rewrite mat_set_Ok in Hs by assumption. discriminate.
  - pose proof Hcell as Hcell'.
    apply Transform_cell_Ok in Hcell' as (v0 & w & _ & _ & Hset); [|assumption].
    destruct (mat_set_dims _ _ _ _ _ Hset) as (Hr & Hc & Hwf1).
    destruct (IH x1 (Hwf1 Hwf) Hnd) as (i' & j' & v' & Hin' & Hv' & He); auto.
    { intros i' j' Hin'. rewrite Hr, Hc. apply Hin. now right. }
    exists i', j', v'. repeat split; auto; [now right|].
    rewrite <- Hv'. symmetry. eapply get_set_other; [exact Hset|].
    intros Heq. injection Heq as -> ->. contradiction.
Qed.

End CellsLoop.

(** [Transform] works element by element: when it returns, the result has
    the shape of [x] and holds at [(i, j)] the [cell_value] of [x(i, j)]. *)
Theorem Transform_Ok (b : BoundaryBoxConstraint) (x y : mat) :
  mat_wf x -> Transform b x = Ok y ->
  n_rows y = n_rows x /\ n_cols y = n_cols x /\ mat_wf y /\
  forall i j, (i < n_rows x)%nat -> (j < n_cols x)%nat ->
    exists v w, get x i j = Ok v /\ cell_value b i j v = Ok w /\ get y i j = Ok w.
Proof.
  intros Hwf H. rewrite Transform_cells in H.
  apply cells_loop_Ok in H as (Hr & Hc & Hwfy & Hdone & _);
    [|assumption|apply NoDup_cells].
  repeat split; auto. intros i j Hi Hj. apply Hdone, elem_of_cells. auto.
Qed.

(** When [Transform] stops with an error, some element's value does. *)
Theorem Transform_Err (b : BoundaryBoxConstraint) (x : mat) (e : error) :
  mat_wf x -> Transform b x = Err e ->
  exists i j v, (i < n_rows x)%nat /\ (j < n_cols x)%nat /\
                get x i j = Ok v /\ cell_value b i j v = Err e.
Proof.
  intros Hwf H. rewrite Transform_cells in H.
  apply cells_loop_Err in H as (i & j & v & Hin & Hv & He);
    [|assumption|apply NoDup_cells|intros i j; apply elem_of_cells].
  apply elem_of_cells in Hin as [Hi Hj]. exists i, j, v. auto.
Qed.

(** [Transform] returns as soon as every element has a value. *)
Theorem Transform_total (b : BoundaryBoxConstraint) (x : mat) :
  mat_wf x ->
  (forall i j v, get x i j = Ok v -> exists w, cell_value b i j v = Ok w) ->
  exists y, Transform b x = Ok y.
Proof.
  intros Hwf Hall. destruct (Transform b x) as [y|e] eqn:E; [eauto|].
  apply Transform_Err in E as (i & j & v & _ & _ & Hv & He); [|assumption].
  destruct (Hall i j v Hv) as [w Hw]. congruence.
Qed.

(** ** Scalars *)

Lemma Qltb_true (x y : Q) : Qltb x y = true <-> x < y.
Proof.
  unfold Qltb. rewrite negb_true_iff, <- not_true_iff_false, Qle_bool_iff.
  split; [apply Qnot_le_lt | apply Qlt_not_le].
Qed.

Lemma Qltb_false (x y : Q) : Qltb x y = false <-> y <= x.
Proof. unfold Qltb. rewrite negb_false_iff. apply Qle_bool_iff. Qed.

(** Case analysis on the comparisons of a goal. *)
Ltac case_Qltb :=
  repeat match goal with
  | |- context [Qltb ?a ?b] =>
      let H := fresh "Hlt" in
      destruct (Qltb a b) eqn:H;
      [apply Qltb_true in H | apply Qltb_false in H]
  end.

Lemma std_min_spec (a b : Q) :
  (b < a /\ std_min a b = b) \/ (a <= b /\ std_min a b = a).
Proof. unfold std_min. case_Qltb; auto. Qed.

Lemma half_spec (x : Q) : 2 * (x / 2) == x.
Proof. field. Qed.

Lemma twentieth_spec (x : Q) : 20 * (x / 20) == x.
Proof. field. Qed.

Lemma quarter_spec (x : Q) : 4 * (x / 4) == x.
Proof. field. Qed.

Lemma fdiv_Ok (a b : Q) :
  ~ b == 0 -> exists q, fdiv a b = Ok q /\ q * b == a.
Proof.
  intros Hb. unfold fdiv. destruct (Qeq_bool b 0) eqn:E.
  - apply Qeq_bool_iff in E. contradiction.
  - exists (a / b). split; [reflexivity|]. field. exact Hb.
Qed.

Lemma fdiv_zero (a b : Q) : b == 0 -> fdiv a b = Err DivByZero.
Proof. intros Hb. unfold fdiv. apply Qeq_bool_iff in Hb. now rewrite Hb. Qed.

(** What lines 91-96 establish, for bounds in order. *)
Lemma margins_spec (lo up : Q) :
  let m := margins_of lo up in
  lo <= up ->
  2 * diff m == up - lo /\
  0 <= al m <= diff m /\ 0 <= au m <= diff m /\
  (lo < up -> 0 < al m /\ 0 < au m) /\
  xlow m == lo - 2 * al m - diff m /\
  xup m == up + 2 * au m + diff m /\
  r m == 2 * (2 * diff m + al m + au m).
Proof.
  intros m Hle. subst m. unfold margins_of. cbn [diff al au xlow xup r].
  pose proof (half_spec (up - lo)) as Hd.
  pose proof (twentieth_spec (1 + Qabs lo)) as Hl.
  pose proof (twentieth_spec (1 + Qabs up)) as Hu.
  pose proof (Qabs_nonneg lo). pose proof (Qabs_nonneg up).
  set (d := (up - lo) / 2) in *.
  set (ml := (1 + Qabs lo) / 20) in *. set (mu := (1 + Qabs up) / 20) in *.
  destruct (std_min_spec d ml) as [[? ->]|[? ->]];
  destruct (std_min_spec d mu) as [[? ->]|[? ->]];
  repeat split; try lra.
Qed.

(** ** The steps of the element map *)

(** The two reflections map the pre-image [[xlow, xup]] into
    [[lo - al, up + au]]. *)
Lemma reflect_range (lo up al au d xl xu y : Q) :
  0 <= al <= d -> 0 <= au <= d -> 2 * d == up - lo ->
  xl == lo - 2 * al - d -> xu == up + 2 * au + d ->
  xl <= y <= xu ->
  lo - al <= reflect_upper up au (reflect_lower lo al y) <= up + au.
Proof.
  intros Hal Hau Hd Hxl Hxu Hy. unfold reflect_upper, reflect_lower.
  case_Qltb; lra.
Qed.

(** The reflections leave a value of [[lo - al, up + au]] alone. *)
Lemma reflect_id (lo up al au y : Q) :
  lo - al <= y <= up + au ->
  reflect_upper up au (reflect_lower lo al y) = y.
Proof.
  intros Hy. unfold reflect_upper, reflect_lower.
  case_Qltb; try reflexivity; lra.
Qed.

Lemma smooth_lower_range (lo al y : Q) :
  0 < al -> lo - al <= y -> y < lo + al ->
  exists v, smooth_lower lo al y = Ok v /\ lo <= v /\ v < lo + al.
Proof.
  intros Hal Hy1 Hy2. unfold smooth_lower.
  destruct (fdiv_Ok ((y - (lo - al)) * (y - (lo - al)) / 4) al) as (q & -> & Hq);
    [lra|].
  exists (lo + q). split; [reflexivity|].
  pose proof (quarter_spec ((y - (lo - al)) * (y - (lo - al)))) as H4.
  set (s := (y - (lo - al)) * (y - (lo - al)) / 4) in *.
  assert (Hs : 4 * (q * al) == (y - (lo - al)) * (y - (lo - al))) by (rewrite Hq; exact H4).
  split; nra.
Qed.

Lemma smooth_upper_range (up au y : Q) :
  0 < au -> up - au < y -> y <= up + au ->
  exists v, smooth_upper up au y = Ok v /\ up - au < v /\ v <= up.
Proof.
  intros Hau Hy1 Hy2. unfold smooth_upper.
  destruct (fdiv_Ok ((y - (up + au)) * (y - (up + au)) / 4) au) as (q & -> & Hq);
    [lra|].
  exists (up - q). split; [reflexivity|].
  pose proof (quarter_spec ((y - (up + au)) * (y - (up + au)))) as H4.
  set (s := (y - (up + au)) * (y - (up + au)) / 4) in *.
  assert (Hs : 4 * (q * au) == (y - (up + au)) * (y - (up + au))) by (rewrite Hq; exact H4).
  split; nra.
Qed.

(** Lines 117-128 map [[lo - al, up + au]] into [[lo, up]]. *)
Lemma boundary_transformation_range (lo up al au d y : Q) :
  0 < al <= d -> 0 < au <= d -> 2 * d == up - lo ->
  lo - al <= y <= up + au ->
  exists v, boundary_transformation lo up al au y = Ok v /\ lo <= v <= up.
Proof.
  intros Hal Hau Hd Hy. unfold boundary_transformation. case_Qltb.
  - destruct (smooth_lower_range lo al y) as (v & -> & Hv1 & Hv2); try lra.
    exists v. split; [reflexivity|]. lra.
  - destruct (smooth_upper_range up au y) as (v & -> & Hv1 & Hv2); try lra.
    exists v. split; [reflexivity|]. lra.
  - exists y. split; [reflexivity|]. lra.
Qed.

(** Between the margin bands nothing is done. *)
Lemma boundary_transformation_id (lo up al au y : Q) :
  lo + al <= y <= up - au ->
  boundary_transformation lo up al au y = Ok y.
Proof.
  intros Hy. unfold boundary_transformation. case_Qltb; try reflexivity; lra.
Qed.

Lemma shift_up_id (xl r y : Q) : xl <= y -> shift_up xl r y = Ok y.
Proof. intros H. unfold shift_up. apply Qltb_false in H. now rewrite H. Qed.

Lemma shift_down_id (xu r y : Q) : y <= xu -> shift_down xu r y = Ok y.
Proof. intros H. unfold shift_down. apply Qltb_false in H. now rewrite H. Qed.

(** X17.  On the pre-image the element map has a value, and it is in the
    box: for bounds [lo < up], an element of [[xlow, xup]] is mapped into
    [[lo, up]], whatever the period (no shift is applied, so no cast and no
    division by the period). *)
Theorem Transform_elem_preimage (lo up y : Q) :
  lo < up ->
  xlow (margins_of lo up) <= y <= xup (margins_of lo up) ->
  exists v, Transform_elem lo up y = Ok v /\ lo <= v <= up.
Proof.
  intros Hlt Hy. unfold Transform_elem, shift_into_preimage.
  destruct (margins_spec lo up) as (Hd & Hal & Hau & Hpos & Hxl & Hxu & Hr); [lra|].
  destruct (Hpos Hlt) as [Hal0 Hau0].
  set (m := margins_of lo up) in *.
  rewrite shift_up_id by tauto. simpl.
  rewrite shift_down_id by tauto. simpl.
  apply (boundary_transformation_range lo up (al m) (au m) (diff m)); try lra.
  apply (reflect_range lo up (al m) (au m) (diff m) (xlow m) (xup m)); auto; lra.
Qed.

(** ** The conversion to [int] *)

(** On a non-negative value below 2^31 the cast succeeds and rounds down. *)
Lemma to_int_nonneg (q : Q) :
  0 <= q -> q < inject_Z (2 ^ 31) ->
  exists k, to_int q = Ok k /\ (0 <= k)%Z /\ inject_Z k <= q /\ q < inject_Z k + 1.
Proof.
  destruct q as [n d]. unfold Qle, Qlt, to_int, INT_MIN, INT_MAX. cbn -[Z.quot Z.pow].
  intros H0 Hmax.
  assert (Hn : (0 <= n)%Z) by lia.
  rewrite Z.quot_div_nonneg by lia.
  pose proof (Z.div_mod n (Z.pos d) ltac:(lia)) as Hdm.
  pose proof (Z.mod_pos_bound n (Z.pos d) ltac:(lia)) as Hmod.
  set (k := (n / Z.pos d)%Z) in *.
  assert (Hk0 : (0 <= k)%Z) by (apply Z.div_pos; lia).
  assert (Hk1 : (k < 2 ^ 31)%Z) by nia.
  exists k.
  replace ((- 2 ^ 31 <=? k)%Z && (k <=? 2 ^ 31 - 1)%Z) with true
    by (symmetry; apply andb_true_iff; split; apply Z.leb_le; lia).
  repeat split; auto; unfold Qle, Qlt; cbn -[Z.pow]; nia.
Qed.

(** At or above 2^31 the truncated value does not fit an [int]. *)
Lemma to_int_overflow (q : Q) :
  inject_Z (2 ^ 31) <= q -> to_int q = Err IntCastUB.
Proof.
  destruct q as [n d]. unfold Qle, to_int, INT_MIN, INT_MAX. cbn -[Z.quot Z.pow].
  intros Hmin.
  assert (Hn : (0 <= n)%Z) by lia.
  rewrite Z.quot_div_nonneg by lia.
  assert (Hk : (2 ^ 31 <= n / Z.pos d)%Z) by (apply Z.div_le_lower_bound; lia).
  replace (n / Z.pos d <=? 2 ^ 31 - 1)%Z with false
    by (symmetry; apply Z.leb_gt; lia).
  now rewrite andb_false_r.
Qed.

(** ** The periodic shift, as written *)

(** Line 101 adds [r + (int)(xlow - y)]: the value lands within one unit
    below [xlow + r], whatever the period [r] is. *)
Lemma shift_up_lands (xl r y : Q) :
  y < xl -> xl - y < inject_Z (2 ^ 31) -> ~ r == 0 ->
  exists y', shift_up xl r y = Ok y' /\ xl + r - 1 < y' /\ y' <= xl + r.
Proof.
  intros Hy Hfit Hr. unfold shift_up.
  apply Qltb_true in Hy as Hb. rewrite Hb.
  destruct (to_int_nonneg (xl - y)) as (k & -> & _ & Hk1 & Hk2); [lra|lra|].
  cbn [bind].
  destruct (fdiv_Ok (inject_Z k) r Hr) as (q & -> & Hq). cbn [bind].
  exists (y + r * (1 + q)). split; [reflexivity|].
  assert (E : y + r * (1 + q) == y + r + inject_Z k) by (rewrite <- Hq; ring).
  rewrite E. lra.
Qed.

(** Line 105 subtracts [r + (int)(y - xup)]: the value lands within one
    unit above [xup - r]. *)
Lemma shift_down_lands (xu r y : Q) :
  xu < y -> y - xu < inject_Z (2 ^ 31) -> ~ r == 0 ->
  exists y', shift_down xu r y = Ok y' /\ xu - r <= y' /\ y' < xu - r + 1.
Proof.
  intros Hy Hfit Hr. unfold shift_down.
  apply Qltb_true in Hy as Hb. rewrite Hb.
  destruct (to_int_nonneg (y - xu)) as (k & -> & _ & Hk1 & Hk2); [lra|lra|].
  cbn [bind].
  destruct (fdiv_Ok (inject_Z k) r Hr) as (q & -> & Hq). cbn [bind].
  exists (y - r * (1 + q)). split; [reflexivity|].
  assert (E : y - r * (1 + q) == y - r - inject_Z k) by (rewrite <- Hq; ring).
  rewrite E. lra.
Qed.

(** When the period is at least 1, the two shifts do reach the pre-image. *)
Lemma shifts_reach_preimage (xl xu r y : Q) :
  xu == xl + r -> 1 <= r ->
  xl - y < inject_Z (2 ^ 31) -> y - xu < inject_Z (2 ^ 31) ->
  exists y2, (do y1 <- shift_up xl r y ; shift_down xu r y1) = Ok y2 /\
             xl <= y2 <= xu.
Proof.
  intros Hp Hr Hlo Hhi.
  destruct (Qlt_le_dec y xl) as [Hy|Hy].
  - destruct (shift_up_lands xl r y Hy Hlo) as (y1 & -> & H1 & H2); [lra|].
    cbn [bind]. rewrite shift_down_id by lra. exists y1. split; [reflexivity|lra].
  - rewrite shift_up_id by assumption. cbn [bind].
    destruct (Qlt_le_dec xu y) as [Hy'|Hy'].
    + destruct (shift_down_lands xu r y Hy' Hhi) as (y2 & -> & H1 & H2); [lra|].
      exists y2. split; [reflexivity|lra].
    + rewrite shift_down_id by assumption. exists y. split; [reflexivity|lra].
Qed.

(** So for a period of at least 1 the element map has a value in the box,
    for every input whose distance to the pre-image fits an [int]. *)
Theorem Transform_elem_wide (lo up y : Q) :
  lo < up -> 1 <= r (margins_of lo up) ->
  xlow (margins_of lo up) - y < inject_Z (2 ^ 31) ->
  y - xup (margins_of lo up) < inject_Z (2 ^ 31) ->
  exists v, Transform_elem lo up y = Ok v /\ lo <= v <= up.
Proof.
  intros Hlt Hr1 Hlo Hhi. unfold Transform_elem, shift_into_preimage.
  destruct (margins_spec lo up) as (Hd & Hal & Hau & Hpos & Hxl & Hxu & Hr); [lra|].
  destruct (Hpos Hlt) as [Hal0 Hau0].
  set (m := margins_of lo up) in *.
  destruct (shifts_reach_preimage (xlow m) (xup m) (r m) y) as (y2 & Hs & Hy2);
    try assumption; [lra|].
  destruct (shift_up (xlow m) (r m) y) as [y1|] eqn:E1; [|discriminate].
  cbn [bind] in *. rewrite Hs. cbn [bind].
  apply (boundary_transformation_range lo up (al m) (au m) (diff m)); try lra.
  apply (reflect_range lo up (al m) (au m) (diff m) (xlow m) (xup m)); auto; lra.
Qed.

(** ** Degenerate bounds *)

Lemma margins_degenerate (lo up : Q) :
  lo == up ->
  let m := margins_of lo up in
  al m == 0 /\ au m == 0 /\ xlow m == lo /\ xup m == lo /\ r m == 0.
Proof.
  intros He m.
  destruct (margins_spec lo up) as (Hd & Hal & Hau & _ & Hxl & Hxu & Hr); [lra|].
  fold m in Hd, Hal, Hau, Hxl, Hxu, Hr. repeat split; lra.
Qed.

(** X18.  With [lo == up] every element other than the bound (and less
    than 2^31 away from it) reaches a division by the period [r = 0], at
    line 101 when it is below the bound and at line 105 when it is above. *)
Lemma Transform_elem_degenerate_div (lo up y : Q) :
  lo == up -> ~ y == lo ->
  lo - y < inject_Z (2 ^ 31) -> y - lo < inject_Z (2 ^ 31) ->
  Transform_elem lo up y = Err DivByZero.
Proof.
  intros He Hne Hfit1 Hfit2.
  destruct (margins_degenerate lo up He) as (Hal & Hau & Hxl & Hxu & Hr).
  unfold Transform_elem, shift_into_preimage.
  set (m := margins_of lo up) in *.
  destruct (Qlt_le_dec y lo) as [Hy|Hy].
  - unfold shift_up. replace (Qltb y (xlow m)) with true
      by (symmetry; apply Qltb_true; lra).
    destruct (to_int_nonneg (xlow m - y)) as (k & -> & _); [lra|lra|].
    cbn [bind]. now rewrite (fdiv_zero _ _ Hr).
  - rewrite shift_up_id by lra. cbn [bind].
    unfold shift_down. replace (Qltb (xup m) y) with true
      by (symmetry; apply Qltb_true; lra).
    destruct (to_int_nonneg (y - xup m)) as (k & -> & _); [lra|lra|].
    cbn [bind]. now rewrite (fdiv_zero _ _ Hr).
Qed.

(** ** The interior band *)

Lemma Transform_elem_band (lo up y : Q) :
  lo <= up ->
  lo + al (margins_of lo up) <= y <= up - au (margins_of lo up) ->
  Transform_elem lo up y = Ok y.
Proof.
  intros Hle Hy.
  destruct (margins_spec lo up Hle) as (Hd & Hal & Hau & _ & Hxl & Hxu & Hr).
  unfold Transform_elem, shift_into_preimage.
  set (m := margins_of lo up) in *.
  rewrite shift_up_id by lra. cbn [bind].
  rewrite shift_down_id by lra. cbn [bind].
  rewrite reflect_id by lra.
  apply boundary_transformation_id. lra.
Qed.

(** ** The band edges *)

Lemma smooth_lower_edge (lo al : Q) :
  ~ al == 0 ->
  exists v, smooth_lower lo al (lo + al) = Ok v /\ v == lo + al.
Proof.
  intros Hal. unfold smooth_lower.
  destruct (fdiv_Ok ((lo + al - (lo - al)) * (lo + al - (lo - al)) / 4) al Hal)
    as (q & -> & Hq).
  exists (lo + q). split; [reflexivity|].
  assert (E : q == al).
  { apply (Qmult_inj_r _ _ al Hal). rewrite Hq. field. }
  rewrite E. reflexivity.
Qed.

Lemma smooth_upper_edge (up au : Q) :
  ~ au == 0 ->
  exists v, smooth_upper up au (up - au) = Ok v /\ v == up - au.
Proof.
  intros Hau. unfold smooth_upper.
  destruct (fdiv_Ok ((up - au - (up + au)) * (up - au - (up + au)) / 4) au Hau)
    as (q & -> & Hq).
  exists (up - q). split; [reflexivity|].
  assert (E : q == au).
  { apply (Qmult_inj_r _ _ au Hau). rewrite Hq. field. }
  rewrite E. reflexivity.
Qed.

(** Inside the lower band the smoothed value approaches the edge
    [lo + al] at least as fast as the argument does. *)
Lemma smooth_lower_near_edge (lo al y v : Q) :
  0 < al -> lo - al <= y <= lo + al ->
  smooth_lower lo al y = Ok v ->
  0 <= (lo + al) - v /\ (lo + al) - v <= (lo + al) - y.
Proof.
  intros Hal Hy. unfold smooth_lower.
  destruct (fdiv_Ok ((y - (lo - al)) * (y - (lo - al)) / 4) al) as (q & -> & Hq);
    [lra|].
  cbn [bind]. intros [= <-].
  pose proof (quarter_spec ((y - (lo - al)) * (y - (lo - al)))) as H4.
  set (s := (y - (lo - al)) * (y - (lo - al)) / 4) in *.
  assert (Hs : 4 * (q * al) == (y - (lo - al)) * (y - (lo - al)))
    by (rewrite Hq; exact H4).
  split; nra.
Qed.

Lemma smooth_upper_near_edge (up au y v : Q) :
  0 < au -> up - au <= y <= up + au ->
  smooth_upper up au y = Ok v ->
  0 <= v - (up - au) /\ v - (up - au) <= y - (up - au).
Proof.
  intros Hau Hy. unfold smooth_upper.
  destruct (fdiv_Ok ((y - (up + au)) * (y - (up + au)) / 4) au) as (q & -> & Hq);
    [lra|].
  cbn [bind]. intros [= <-].
  pose proof (quarter_spec ((y - (up + au)) * (y - (up + au)))) as H4.
  set (s := (y - (up + au)) * (y - (up + au)) / 4) in *.
  assert (Hs : 4 * (q * au) == (y - (up + au)) * (y - (up + au)))
    by (rewrite Hq; exact H4).
  split; nra.
Qed.

(** ** Clamped bound indices *)

Lemma bound_index_min (i n : nat) :
  (0 < n)%nat -> (Z.of_nat n <= SIZE_MAX)%Z ->
  bound_index i n = Z.of_nat (Nat.min i (n - 1)).
Proof.
  intros Hn Hmax. unfold bound_index, size_t_wrap, SIZE_MAX in *.
  destruct (i <? n)%nat eqn:E.
  - apply Nat.ltb_lt in E. f_equal. lia.
  - apply Nat.ltb_ge in E.
    replace (Nat.min i (n - 1)) with (n - 1)%nat by lia.
    rewrite Z.mod_small; lia.
Qed.

(** On an empty dimension the subtraction wraps around. *)
Lemma bound_index_empty (i : nat) : bound_index i 0 = SIZE_MAX.
Proof. reflexivity. Qed.

Lemma bound_index_lt (i n : nat) :
  (0 < n)%nat -> (Z.of_nat n <= SIZE_MAX)%Z ->
  (0 <= bound_index i n < Z.of_nat n)%Z.
Proof. intros Hn Hmax. rewrite bound_index_min by assumption. lia. Qed.

(** The loop body reads both bound matrices at the index clamped to the
    last row and column of [lowerBound]. *)
Lemma cell_value_clamped (b : BoundaryBoxConstraint) (i j : nat) (v : Q) :
  (0 < n_rows (lowerBound b))%nat -> (0 < n_cols (lowerBound b))%nat ->
  dims_size_t (lowerBound b) ->
  cell_value b i j v
  = do up <- get (upperBound b) (Nat.min i (n_rows (lowerBound b) - 1))
                                (Nat.min j (n_cols (lowerBound b) - 1)) ;
    do lo <- get (lowerBound b) (Nat.min i (n_rows (lowerBound b) - 1))
                                (Nat.min j (n_cols (lowerBound b) - 1)) ;
    Transform_elem lo up v.
Proof.
  intros Hr Hc [Hsr Hsc]. unfold cell_value, get.
  now rewrite !bound_index_min by assumption.
Qed.

(** With the scalar constructor every element uses the one pair of bounds. *)
Lemma cell_value_scalar (lo up : Q) (i j : nat) (v : Q) :
  cell_value (BoundaryBoxConstraint_scalar lo up) i j v = Transform_elem lo up v.
Proof.
  unfold cell_value. cbn [lowerBound upperBound BoundaryBoxConstraint_scalar
                          mat_of_list n_rows n_cols length].
  assert (Hi : bound_index i 1 = 0%Z) by (rewrite bound_index_min; [lia|lia|easy]).
  assert (Hj : bound_index j 1 = 0%Z) by (rewrite bound_index_min; [lia|lia|easy]).
  rewrite Hi, Hj. reflexivity.
Qed.

(** ** Which errors the element map can raise *)

Lemma to_int_Err (q : Q) (e : error) : to_int q = Err e -> e = IntCastUB.
Proof. unfold to_int. destruct (_ && _); congruence. Qed.

Lemma fdiv_Err (a b : Q) (e : error) : fdiv a b = Err e -> e = DivByZero.
Proof. unfold fdiv. destruct (Qeq_bool b 0); congruence. Qed.

Lemma shift_up_Err (xl r y : Q) (e : error) :
  shift_up xl r y = Err e -> arith_error e.
Proof.
  unfold shift_up, arith_error. destruct (Qltb y xl); [|discriminate].
  intros H. apply bind_Err in H as [H|(k & _ & H)].
  - right. eapply to_int_Err, H.
  - apply bind_Err in H as [H|(q & _ & H)]; [|discriminate].
    left. eapply fdiv_Err, H.
Qed.

Lemma shift_down_Err (xu r y : Q) (e : error) :
  shift_down xu r y = Err e -> arith_error e.
Proof.
  unfold shift_down, arith_error. destruct (Qltb xu y); [|discriminate].
  intros H. apply bind_Err in H as [H|(k & _ & H)].
  - right. eapply to_int_Err, H.
  - apply bind_Err in H as [H|(q & _ & H)]; [|discriminate].
    left. eapply fdiv_Err, H.
Qed.

Lemma boundary_transformation_Err (lo up al au y : Q) (e : error) :
  boundary_transformation lo up al au y = Err e -> arith_error e.
Proof.
  unfold boundary_transformation, smooth_lower, smooth_upper, arith_error.
  destruct (Qltb y (lo + al)); [|destruct (Qltb (up - au) y); [|discriminate]];
    intros H; apply bind_Err in H as [H|(q & _ & H)]; try discriminate;
    left; eapply fdiv_Err, H.
Qed.

Lemma Transform_elem_Err (lo up y : Q) (e : error) :
  Transform_elem lo up y = Err e -> arith_error e.
Proof.
  unfold Transform_elem, shift_into_preimage. intros H.
  apply bind_Err in H as [H|(y4 & _ & H)].
  - apply bind_Err in H as [H|(y1 & _ & H)]; [eapply shift_up_Err, H|].
    apply bind_Err in H as [H|(y2 & _ & H)]; [eapply shift_down_Err, H|discriminate].
  - eapply boundary_transformation_Err, H.
Qed.

(** ** Bounds of the element accesses *)

Lemma bound_accesses_in_bounds (b : BoundaryBoxConstraint) (i j : nat) :
  dims_size_t (lowerBound b) ->
  (0 < n_rows (lowerBound b))%nat -> (0 < n_cols (lowerBound b))%nat ->
  (n_rows (lowerBound b) <= n_rows (upperBound b))%nat ->
  (n_cols (lowerBound b) <= n_cols (upperBound b))%nat ->
  let Bi := bound_index i (n_rows (lowerBound b)) in
  let Bj := bound_index j (n_cols (lowerBound b)) in
  in_bounds (lowerBound b) Bi Bj = true /\ in_bounds (upperBound b) Bi Bj = true.
Proof.
  intros [Hsr Hsc] Hr Hc Hur Huc Bi Bj.
  pose proof (bound_index_lt i _ Hr Hsr) as HBi.
  pose proof (bound_index_lt j _ Hc Hsc) as HBj.
  fold Bi in HBi. fold Bj in HBj. unfold in_bounds.
  rewrite !andb_true_iff, !Z.leb_le, !Z.ltb_lt. lia.
Qed.

Lemma cell_value_no_OutOfBounds (b : BoundaryBoxConstraint) (i j : nat) (v : Q) :
  mat_wf (lowerBound b) -> mat_wf (upperBound b) -> dims_size_t (lowerBound b) ->
  (0 < n_rows (lowerBound b))%nat -> (0 < n_cols (lowerBound b))%nat ->
  (n_rows (lowerBound b) <= n_rows (upperBound b))%nat ->
  (n_cols (lowerBound b) <= n_cols (upperBound b))%nat ->
  cell_value b i j v <> Err OutOfBounds.
Proof.
  intros Hwl Hwu Hsz Hr Hc Hur Huc H.
  destruct (bound_accesses_in_bounds b i j Hsz Hr Hc Hur Huc) as [Hbl Hbu].
  destruct (mat_at_in_bounds _ _ _ Hwl Hbl) as [lo Hlo].
  destruct (mat_at_in_bounds _ _ _ Hwu Hbu) as [up Hup].
  unfold cell_value in H. rewrite Hup, Hlo in H. cbn [bind] in H.
  apply Transform_elem_Err in H as [H|H]; discriminate.
Qed.

(** A default-constructed policy: the first access of the first iteration
    is out of bounds. *)
Lemma Transform_default_OutOfBounds (x : mat) :
  (0 < n_rows x)%nat -> (0 < n_cols x)%nat ->
  Transform BoundaryBoxConstraint_default x = Err OutOfBounds.
Proof.
  intros Hr Hc. unfold Transform, Transform_row.
  destruct (n_rows x) as [|n]; [lia|]. destruct (n_cols x) as [|k]; [lia|].
  reflexivity.
Qed.

(** ** The initial step size *)

Lemma direct_min_spec (l : list Q) (v : Q) :
  (direct_min v l <= v /\ forall x, x ∈ l -> direct_min v l <= x) /\
  (direct_min v l = v \/ direct_min v l ∈ l).
Proof.
  revert v. induction l as [|a l IH]; intros v; unfold direct_min; simpl.
  - split; [split; [lra|]|auto]. intros x Hx. inversion Hx.
  - fold (direct_min (if Qltb a v then a else v) l).
    destruct (IH (if Qltb a v then a else v)) as [[Hv Hall] Hin].
    revert Hv Hin. case_Qltb; intros Hv Hin.
    + split; [split; [lra|]|].
      * intros x Hx. apply elem_of_cons in Hx as [->|Hx]; auto.
      * right. destruct Hin as [->|Hin]; [left|now right].
    + split; [split; [lra|]|].
      * intros x Hx. apply elem_of_cons in Hx as [->|Hx]; [lra|auto].
      * destruct Hin as [->|Hin]; [now left|right; now right].
Qed.

Lemma column_lookup (m : mat) (i j : nat) :
  (i < n_rows m)%nat -> column m j !! i = mem m !! (i + j * n_rows m)%nat.
Proof.
  intros Hi. unfold column. rewrite lookup_take_lt by assumption.
  rewrite lookup_drop. f_equal. lia.
Qed.

Lemma column_length (m : mat) (j : nat) :
  mat_wf m -> (j < n_cols m)%nat -> length (column m j) = n_rows m.
Proof.
  unfold mat_wf, column. intros Hwf Hj.
  rewrite length_take, length_drop, Hwf. nia.
Qed.

Lemma get_lookup (m : mat) (i j : nat) (v : Q) :
  get m i j = Ok v <->
  (i < n_rows m)%nat /\ (j < n_cols m)%nat /\
  mem m !! (i + j * n_rows m)%nat = Some v.
Proof.
  unfold get, mat_at. rewrite offset_nat.
  destruct (in_bounds m (Z.of_nat i) (Z.of_nat j)) eqn:Hb.
  - apply in_bounds_nat in Hb as [Hi Hj].
    destruct (mem m !! (i + j * n_rows m)%nat) as [w|]; split.
    + intros [= ->]. auto.
    + intros (_ & _ & [= ->]). reflexivity.
    + discriminate.
    + intros (_ & _ & H). discriminate.
  - split; [discriminate|]. intros (Hi & Hj & _).
    assert (in_bounds m (Z.of_nat i) (Z.of_nat j) = true)
      by (apply in_bounds_nat; auto).
    congruence.
Qed.

(** The minimum of a column bounds its elements and is one of them. *)
Lemma col_min_spec (m : mat) (j : nat) :
  mat_wf m -> (0 < n_rows m)%nat -> (j < n_cols m)%nat ->
  (forall i v, get m i j = Ok v -> col_min m j <= v) /\
  (exists i, get m i j = Ok (col_min m j)).
Proof.
  intros Hwf Hr Hj. unfold col_min.
  pose proof (column_length m j Hwf Hj) as Hlen.
  destruct (column m j) as [|v0 l] eqn:Ecol; [simpl in Hlen; lia|].
  destruct (direct_min_spec l v0) as [[Hv0 Hall] Hin].
  assert (Hmem : forall x, x ∈ v0 :: l -> exists i, get m i j = Ok x).
  { intros x Hx. apply list_elem_of_lookup_1 in Hx as [i Hi].
    assert (Hlt : (i < n_rows m)%nat).
    { rewrite <- Hlen. apply lookup_lt_is_Some. eauto. }
    exists i. apply get_lookup. repeat split; auto.
    rewrite <- column_lookup, Ecol by assumption. exact Hi. }
  split.
  - intros i v Hv. apply get_lookup in Hv as (Hi & _ & Hv).
    rewrite <- column_lookup, Ecol in Hv by assumption.
    apply list_elem_of_lookup_2 in Hv.
    apply elem_of_cons in Hv as [->|Hv]; auto.
  - apply Hmem. destruct Hin as [->|Hin]; [left|now right].
Qed.

(** [min(min(M))] of a non-empty matrix is its smallest element. *)
Lemma arma_min_min_spec (m : mat) :
  mat_wf m -> (0 < n_rows m)%nat -> (0 < n_cols m)%nat ->
  exists mn, arma_min_vec (arma_min_cols m) = Ok mn /\
    (forall i j v, get m i j = Ok v -> mn <= v) /\
    (exists i j, get m i j = Ok mn).
Proof.
  intros Hwf Hr Hc. unfold arma_min_cols.
  replace (n_rows m =? 0)%nat with false by (symmetry; apply Nat.eqb_neq; lia).
  unfold arma_min_vec. cbn [mem].
  destruct (col_min m <$> seq 0 (n_cols m)) as [|c0 cs] eqn:E.
  { apply (f_equal length) in E. rewrite length_fmap, length_seq in E.
    simpl in E. lia. }
  exists (direct_min c0 cs). split; [reflexivity|].
  destruct (direct_min_spec cs c0) as [[Hc0 Hall] Hin].
  assert (Hcols : forall c, c ∈ c0 :: cs ->
                    exists j, (j < n_cols m)%nat /\ c = col_min m j).
  { intros c Hin'. rewrite <- E in Hin'.
    apply list_elem_of_fmap in Hin' as (j & -> & Hj).
    apply elem_of_seq in Hj. exists j. split; [lia|reflexivity]. }
  split.
  - intros i j v Hv. pose proof Hv as Hv'.
    apply get_lookup in Hv' as (_ & Hj & _).
    destruct (col_min_spec m j Hwf Hr Hj) as [Hle _].
    apply Qle_trans with (col_min m j); [|eauto].
    assert (Hmem : col_min m j ∈ c0 :: cs).
    { rewrite <- E. apply list_elem_of_fmap. exists j. split; [reflexivity|].
      apply elem_of_seq. lia. }
    apply elem_of_cons in Hmem as [->|Hmem]; auto.
  - assert (Hm : direct_min c0 cs ∈ c0 :: cs)
      by (destruct Hin as [->|Hin]; [left|now right]).
    destruct (Hcols _ Hm) as (j & Hj & ->).
    destruct (col_min_spec m j Hwf Hr Hj) as [_ [i Hi]]. eauto.
Qed.

Lemma mat_sub_spec (a b d : mat) :
  mat_wf a -> mat_wf b -> mat_sub a b = Ok d ->
  n_rows d = n_rows a /\ n_cols d = n_cols a /\ mat_wf d /\
  forall i j w, get d i j = Ok w <->
    exists u l, get a i j = Ok u /\ get b i j = Ok l /\ w = u - l.
Proof.
  intros Ha Hb. unfold mat_sub.
  destruct (_ && _) eqn:E; [|discriminate]. intros [= <-].
  apply andb_true_iff in E as [Er Ec].
  apply Nat.eqb_eq in Er, Ec. unfold mat_wf in *. cbn [n_rows n_cols mem].
  repeat split; auto.
  - rewrite length_zip_with. lia.
  - rewrite get_lookup. cbn [n_rows n_cols mem].
    intros (Hi & Hj & Hl). apply lookup_zip_with_Some in Hl as (u & l & -> & Hu & Hl).
    exists u, l. rewrite !get_lookup, <- Er, <- Ec. auto.
  - intros (u & l & Hu & Hl & ->). apply get_lookup in Hu as (Hi & Hj & Hu).
    apply get_lookup in Hl as (_ & _ & Hl). rewrite <- Er in Hl.
    apply get_lookup. cbn [n_rows n_cols mem]. repeat split; auto.
    apply lookup_zip_with_Some. eauto.
Qed.

(** ** Where the box is reached *)

(** Whenever every element has bounds [lo < up] with a period of at least
    1, and lies within [int] range of the pre-image, [Transform] returns a
    matrix whose elements are within their bounds. *)
Theorem Transform_in_box (b : BoundaryBoxConstraint) (x : mat) :
  mat_wf x ->
  (forall i j v, get x i j = Ok v ->
     exists lo up,
       mat_at (lowerBound b) (bound_index i (n_rows (lowerBound b)))
                             (bound_index j (n_cols (lowerBound b))) = Ok lo /\
       mat_at (upperBound b) (bound_index i (n_rows (lowerBound b)))
                             (bound_index j (n_cols (lowerBound b))) = Ok up /\
       lo < up /\ 1 <= r (margins_of lo up) /\
       xlow (margins_of lo up) - v < inject_Z (2 ^ 31) /\
       v - xup (margins_of lo up) < inject_Z (2 ^ 31)) ->
  exists y, Transform b x = Ok y /\
    forall i j w, get y i j = Ok w ->
      exists lo up,
        mat_at (lowerBound b) (bound_index i (n_rows (lowerBound b)))
                              (bound_index j (n_cols (lowerBound b))) = Ok lo /\
        mat_at (upperBound b) (bound_index i (n_rows (lowerBound b)))
                              (bound_index j (n_cols (lowerBound b))) = Ok up /\
        lo <= w <= up.
Proof.
  intros Hwf Hall.
  assert (Hcell : forall i j v, get x i j = Ok v ->
            exists lo up w,
              mat_at (lowerBound b) (bound_index i (n_rows (lowerBound b)))
                     (bound_index j (n_cols (lowerBound b))) = Ok lo /\
              mat_at (upperBound b) (bound_index i (n_rows (lowerBound b)))
                     (bound_index j (n_cols (lowerBound b))) = Ok up /\
              cell_value b i j v = Ok w /\ lo <= w <= up).
  { intros i j v Hv.
    destruct (Hall i j v Hv) as (lo & up & Hlo & Hup & Hlt & Hr & Hfit1 & Hfit2).
    destruct (Transform_elem_wide lo up v Hlt Hr Hfit1 Hfit2) as (w & Hw & Hbox).
    exists lo, up, w. repeat split; auto; try tauto.
    unfold cell_value. rewrite Hup, Hlo. exact Hw. }
  destruct (Transform_total b x Hwf) as [y Hy].
  { intros i j v Hv. destruct (Hcell i j v Hv) as (lo & up & w & _ & _ & Hw & _). eauto. }
  exists y. split; [assumption|]. intros i j w Hw.
  destruct (Transform_Ok b x y Hwf Hy) as (Hr & Hc & _ & Helems).
  apply get_Ok_inv in Hw as Hij. destruct Hij as [Hi Hj]. rewrite Hr in Hi. rewrite Hc in Hj.
  destruct (Helems i j Hi Hj) as (v & w' & Hv & Hw' & Hyw).
  destruct (Hcell i j v Hv) as (lo & up & w'' & Hlo & Hup & Hw'' & Hbox).
  exists lo, up. repeat split; auto; replace w with w'' by congruence; tauto.
Qed.


Lemma margins_0_2 :
  xlow (margins_of 0 2) == -(11 # 10) /\ xup (margins_of 0 2) == 33 # 10 /\
  r (margins_of 0 2) == 22 # 5.
Proof. vm_compute. auto. Qed.

(** The bounds of the test cases: [BoundaryBoxConstraint<> b(0, 2)] has
    period 4.4, so every returned element is in [[0, 2]]. *)
Corollary Transform_scalar_0_2_in_box (x : mat) :
  mat_wf x ->
  (forall i j v, get x i j = Ok v -> -(2000000000) < v < 2000000000) ->
  exists y, Transform (BoundaryBoxConstraint_scalar 0 2) x = Ok y /\
    forall i j w, get y i j = Ok w -> 0 <= w <= 2.
Proof.
  intros Hwf Hsmall.
  assert (Hidx : forall i, bound_index i 1 = 0%Z).
  { intros i. rewrite bound_index_min; [lia|lia|easy]. }
  destruct (Transform_in_box (BoundaryBoxConstraint_scalar 0 2) x Hwf)
    as (y & Hy & Hbox).
  - intros i j v Hv. exists 0, 2.
    cbn [lowerBound upperBound BoundaryBoxConstraint_scalar mat_of_list
         n_rows n_cols length]. rewrite !Hidx.
    destruct margins_0_2 as (Hxl & Hxu & Hr).
    assert (E31 : inject_Z (2 ^ 31) == 2147483648) by (vm_compute; reflexivity).
    specialize (Hsmall i j v Hv).
    split; [reflexivity|]. split; [reflexivity|]. split; [reflexivity|].
    rewrite Hxl, Hxu, Hr, E31. repeat split; lra.
  - exists y. split; [assumption|]. intros i j w Hw.
    destruct (Hbox i j w Hw) as (lo & up & Hlo & Hup & Hin).
    revert Hlo Hup.
    cbn [lowerBound upperBound BoundaryBoxConstraint_scalar mat_of_list
         n_rows n_cols length]. rewrite !Hidx.
    intros [= <-] [= <-]. exact Hin.
Qed.

(** ** Matrices that [Transform] leaves as they are *)

Lemma mat_set_same (m : mat) (i j : nat) (v : Q) :
  get m i j = Ok v -> mat_set m (Z.of_nat i) (Z.of_nat j) v = Ok m.
Proof.
  intros Hv. apply get_lookup in Hv as (Hi & Hj & Hv).
  rewrite mat_set_Ok by assumption.
  rewrite list_insert_id by exact Hv. now destruct m.
Qed.

(** If the loop body maps every element to itself, [Transform] returns its
    argument. *)
Theorem Transform_fixes_interior (b : BoundaryBoxConstraint) (x : mat) :
  mat_wf x ->
  (forall i j v, get x i j = Ok v -> cell_value b i j v = Ok v) ->
  Transform b x = Ok x.
Proof.
  intros Hwf Hfix. rewrite Transform_cells.
  assert (Hin : forall i j, (i, j) ∈ cells (n_rows x) (n_cols x) ->
                  (i < n_rows x)%nat /\ (j < n_cols x)%nat)
    by (intros i j; apply elem_of_cells).
  induction (cells (n_rows x) (n_cols x)) as [|[i j] ps IH]; [reflexivity|].
  cbn [foldM fst snd]. destruct (Hin i j) as [Hi Hj]; [left|].
  destruct (get_Ok x i j Hwf Hi Hj) as [v Hv].
  rewrite (Transform_cell_value b i j x v Hv), (Hfix i j v Hv). cbn [bind].
  rewrite (mat_set_same x i j v Hv). cbn [bind].
  apply IH. intros i' j' Hin'. apply Hin. now right.
Qed.

(** ** The element map between the reflection points *)

(** On [[lo - al, up + au]] neither shift nor reflection applies. *)
Lemma Transform_elem_core (lo up y : Q) :
  lo <= up ->
  lo - al (margins_of lo up) <= y <= up + au (margins_of lo up) ->
  Transform_elem lo up y
  = boundary_transformation lo up (al (margins_of lo up)) (au (margins_of lo up)) y.
Proof.
  intros Hle Hy. unfold Transform_elem, shift_into_preimage.
  destruct (margins_spec lo up Hle) as (Hd & Hal & Hau & _ & Hxl & Hxu & Hr).
  set (m := margins_of lo up) in *.
  rewrite shift_up_id by lra. cbn [bind].
  rewrite shift_down_id by lra. cbn [bind].
  now rewrite reflect_id by lra.
Qed.

(** ** The failing inputs, replayed in binary64 *)

(** Bounds 0 and 0.1, element -10.1, as doubles: the shift of line 101
    leaves the value below [xlow], the reflections leave it below
    [lower - al], and the result 0.3125 (up to rounding) is above the upper
    bound. *)
Lemma binary64_leaves_box :
  let lo := 0%float in
  let up := 0x1.999999999999ap-4%float in   (* 0.1 *)
  let y := (-0x1.4333333333333p+3)%float in (* -10.1 *)
  Binary64.shift_into_preimage lo up y = Some (-0x1.3333333333326p-2)%float /\
  Binary64.Transform_elem lo up y = Some 0x1.3ffffffffffdfp-2%float /\
  (up <? 0x1.3ffffffffffdfp-2)%float = true.
Proof. repeat split; vm_compute; reflexivity. Qed.

(** Bounds 0 and 0, element 1, as doubles: [1 / r] is an infinity, [r]
    times it a NaN, and the NaN is what is returned. *)
Lemma binary64_degenerate_nan :
  Binary64.Transform_elem 0%float 0%float 1%float = Some nan.
Proof. vm_compute. reflexivity. Qed.

(** The element equal to the degenerate bound is returned as it is. *)
Lemma binary64_degenerate_fixed :
  Binary64.Transform_elem 3%float 3%float 3%float = Some 3%float.
Proof. vm_compute. reflexivity. Qed.

(** * The claims *)

(** C1 (the code breaks it).  The claim: every element of the matrix
    returned by [Transform] lies in [[lowerBound, upperBound]].  Here the
    code is run on the scalar bounds 0 and 0.1 and the 1x1 input -10.1:
    line 101 adds [r + (int)(xlow - y) = 0.4 + 9] instead of a multiple of
    the period, the value stays below [xlow], and the element returned is
    5/16, above the upper bound 1/10. *)
Theorem Transform_leaves_box :
  exists y v,
    Transform (BoundaryBoxConstraint_scalar 0 (1 # 10)) (Mat 1 1 [-101 # 10]) = Ok y /\
    get y 0 0 = Ok v /\ v == 5 # 16 /\ (1 # 10) < v.
Proof.
  eexists. eexists. split; [vm_compute; reflexivity|].
  split; [vm_compute; reflexivity|]. split; reflexivity.
Qed.

(** C2, counterexample.  Bounds 0 and 0 and the element 1: the claim says
    the divisions are guarded and the element is returned unchanged; the
    code divides by [r = 0] at line 105, for the element map and for
    [Transform] on the 1x1 matrix alike. *)
Lemma degenerate_divides_by_zero :
  Transform_elem 0 0 1 = Err DivByZero /\
  Transform (BoundaryBoxConstraint_scalar 0 0) (Mat 1 1 [1]) = Err DivByZero.
Proof. split; vm_compute; reflexivity. Qed.

(** C2, amended.  On a dimension with [lower == upper], [Transform] is the
    identity on an element equal to that bound: no branch is taken and no
    division is evaluated. *)
Theorem Transform_elem_degenerate_fixed (lo up y : Q) :
  lo == up -> y == lo -> Transform_elem lo up y = Ok y.
Proof.
  intros He Hy.
  destruct (margins_degenerate lo up He) as (Hal & Hau & Hxl & Hxu & Hr).
  unfold Transform_elem, shift_into_preimage.
  set (m := margins_of lo up) in *.
  rewrite shift_up_id by lra. cbn [bind].
  rewrite shift_down_id by lra. cbn [bind].
  rewrite reflect_id by lra.
  apply boundary_transformation_id. lra.
Qed.

(** The bounds 3 and 3 and the element 3. *)
Lemma Transform_elem_degenerate_fixed_witness :
  Transform_elem 3 3 3 = Ok 3.
Proof.
  apply (Transform_elem_degenerate_fixed 3 3 3); reflexivity.
Defined.

(** C3 (the code breaks it).  The claim: one application of the periodic
    shift brings any value into [[xlow, xup]], so that one reflection
    reaches [[lower - al, upper + au]].  With bounds 0 and 0.1
    ([xlow = -0.15], [r = 0.4]) the shift of -10.1 yields -0.7, still below
    [xlow]; the downward shift does not apply, and after the two
    reflections the value is -0.3, below [lower - al = -0.05]. *)
Theorem shift_misses_preimage :
  let m := margins_of 0 (1 # 10) in
  exists y1 y4,
    shift_up (xlow m) (r m) (-101 # 10) = Ok y1 /\ y1 == -7 # 10 /\
    y1 < xlow m /\
    shift_down (xup m) (r m) y1 = Ok y1 /\
    shift_into_preimage 0 (1 # 10) (-101 # 10) = Ok y4 /\ y4 == -3 # 10 /\
    y4 < 0 - al m.
Proof.
  eexists. eexists. split; [vm_compute; reflexivity|].
  repeat split; vm_compute; reflexivity.
Qed.

(** C4.  For bounds [lo < up] read at the clamped index of [(i, j)], an
    element [v = x(i, j)] inside [[lo + al, up - au]] is mapped to itself:
    by the element map, by the loop body at [(i, j)], and in every matrix
    that [Transform] returns. *)
Theorem Transform_identity_on_band
    (b : BoundaryBoxConstraint) (x : mat) (i j : nat) (lo up v : Q) :
  mat_wf x ->
  mat_at (lowerBound b) (bound_index i (n_rows (lowerBound b)))
                        (bound_index j (n_cols (lowerBound b))) = Ok lo ->
  mat_at (upperBound b) (bound_index i (n_rows (lowerBound b)))
                        (bound_index j (n_cols (lowerBound b))) = Ok up ->
  lo < up ->
  get x i j = Ok v ->
  lo + al (margins_of lo up) <= v <= up - au (margins_of lo up) ->
  Transform_elem lo up v = Ok v /\
  cell_value b i j v = Ok v /\
  forall y, Transform b x = Ok y -> get y i j = Ok v.
Proof.
  intros Hwf Hlo Hup Hlt Hv Hband.
  assert (He : Transform_elem lo up v = Ok v)
    by (apply Transform_elem_band; [lra|assumption]).
  assert (Hc : cell_value b i j v = Ok v).
  { unfold cell_value. rewrite Hup, Hlo. exact He. }
  repeat split; auto.
  intros y Hy. apply get_Ok_inv in Hv as Hij. destruct Hij as [Hi Hj].
  destruct (Transform_Ok b x y Hwf Hy) as (_ & _ & _ & Hall).
  destruct (Hall i j Hi Hj) as (v' & w & Hv' & Hw & Hyij).
  rewrite Hv in Hv'. injection Hv' as <-. congruence.
Qed.

(** The scalar bounds 0 and 2 and the column [(3, 1)]: the element 1 at
    row 1 is inside the band [[0.05, 1.85]]. *)
Lemma Transform_identity_on_band_witness :
  Transform_elem 0 2 1 = Ok 1 /\
  cell_value (BoundaryBoxConstraint_scalar 0 2) 1 0 1 = Ok 1 /\
  forall y, Transform (BoundaryBoxConstraint_scalar 0 2) (Mat 2 1 [3; 1]) = Ok y ->
            get y 1 0 = Ok 1.
Proof.
  apply (Transform_identity_on_band
           (BoundaryBoxConstraint_scalar 0 2) (Mat 2 1 [3; 1]) 1 0 0 2 1);
    try reflexivity.
  split; vm_compute; discriminate.
Defined.

(** C5.  For bounds [lo < up] the element map [Transform_elem] has no
    jump at the band edges.  On the lower band [[lo - al, lo + al)] it is
    the quadratic branch of line 119, on the upper band
    [(up - au, up + au]] the quadratic branch of line 125, and between the
    bands the identity.  The quadratic branch of line 119 evaluated at
    [lo + al] is [lo + al] and that of line 125 evaluated at [up - au] is
    [up - au], which are the values the element map takes there (the
    identity branch).  And on either band the value of the element map is
    no farther from the edge than the element is: as the element tends to
    the edge, so does its value. *)
Theorem smoothing_meets_identity_at_edges (lo up : Q) :
  lo < up ->
  let m := margins_of lo up in
  (* the element map on the two bands and between them *)
  (forall y, lo - al m <= y -> y < lo + al m ->
     Transform_elem lo up y = smooth_lower lo (al m) y) /\
  (forall y, up - au m < y -> y <= up + au m ->
     Transform_elem lo up y = smooth_upper up (au m) y) /\
  (forall y, lo + al m <= y <= up - au m -> Transform_elem lo up y = Ok y) /\
  (* its values at the two edges *)
  Transform_elem lo up (lo + al m) = Ok (lo + al m) /\
  Transform_elem lo up (up - au m) = Ok (up - au m) /\
  (* the quadratic branches agree with them *)
  (exists v, smooth_lower lo (al m) (lo + al m) = Ok v /\ v == lo + al m) /\
  (exists v, smooth_upper up (au m) (up - au m) = Ok v /\ v == up - au m) /\
  boundary_transformation lo up (al m) (au m) (lo + al m) = Ok (lo + al m) /\
  boundary_transformation lo up (al m) (au m) (up - au m) = Ok (up - au m) /\
  (* no jump: the element map near the edges *)
  (forall y, lo - al m <= y <= lo + al m ->
     exists v, Transform_elem lo up y = Ok v /\
       0 <= (lo + al m) - v /\ (lo + al m) - v <= (lo + al m) - y) /\
  (forall y, up - au m <= y <= up + au m ->
     exists v, Transform_elem lo up y = Ok v /\
       0 <= v - (up - au m) /\ v - (up - au m) <= y - (up - au m)) /\
  (forall y v, lo - al m <= y <= lo + al m ->
     smooth_lower lo (al m) y = Ok v ->
     0 <= (lo + al m) - v /\ (lo + al m) - v <= (lo + al m) - y) /\
  (forall y v, up - au m <= y <= up + au m ->
     smooth_upper up (au m) y = Ok v ->
     0 <= v - (up - au m) /\ v - (up - au m) <= y - (up - au m)).
Proof.
  intros Hlt m.
  destruct (margins_spec lo up) as (Hd & Hal & Hau & Hpos & _); [lra|].
  destruct (Hpos Hlt) as [Hal0 Hau0]. fold m in Hd, Hal, Hau, Hal0, Hau0.
  assert (Hlow : forall y, lo - al m <= y -> y < lo + al m ->
            Transform_elem lo up y = smooth_lower lo (al m) y).
  { intros y H1 H2. rewrite Transform_elem_core by (fold m; lra). fold m.
    unfold boundary_transformation.
    now replace (Qltb y (lo + al m)) with true by (symmetry; apply Qltb_true; lra). }
  assert (Hupp : forall y, up - au m < y -> y <= up + au m ->
            Transform_elem lo up y = smooth_upper up (au m) y).
  { intros y H1 H2. rewrite Transform_elem_core by (fold m; lra). fold m.
    unfold boundary_transformation.
    replace (Qltb y (lo + al m)) with false by (symmetry; apply Qltb_false; lra).
    now replace (Qltb (up - au m) y) with true by (symmetry; apply Qltb_true; lra). }
  assert (Hmid : forall y, lo + al m <= y <= up - au m -> Transform_elem lo up y = Ok y).
  { intros y Hy. apply Transform_elem_band; [lra|exact Hy]. }
  split; [exact Hlow|]. split; [exact Hupp|]. split; [exact Hmid|].
  split; [apply Hmid; lra|]. split; [apply Hmid; lra|].
  split; [apply smooth_lower_edge; lra|].
  split; [apply smooth_upper_edge; lra|].
  split; [apply boundary_transformation_id; lra|].
  split; [apply boundary_transformation_id; lra|].
  split; [|split; [|split]].
  - intros y Hy. destruct (Qlt_le_dec y (lo + al m)) as [Hin|Hedge].
    + rewrite Hlow by lra.
      destruct (smooth_lower_range lo (al m) y) as (v & Hv & _); try lra.
      exists v. split; [exact Hv|]. now apply (smooth_lower_near_edge lo (al m) y v).
    + rewrite Hmid by lra. exists y. split; [reflexivity|]. lra.
  - intros y Hy. destruct (Qlt_le_dec (up - au m) y) as [Hin|Hedge].
    + rewrite Hupp by lra.
      destruct (smooth_upper_range up (au m) y) as (v & Hv & _); try lra.
      exists v. split; [exact Hv|]. now apply (smooth_upper_near_edge up (au m) y v).
    + rewrite Hmid by lra. exists y. split; [reflexivity|]. lra.
  - intros y v Hy. now apply smooth_lower_near_edge.
  - intros y v Hy. now apply smooth_upper_near_edge.
Qed.

(** The bounds 0 and 2 (bands [[-0.05, 0.05]] and [[1.85, 2.15]]): the
    element map at the two edges, and no jump at 1.851, just inside the
    upper band. *)
Lemma smoothing_meets_identity_at_edges_witness :
  let m := margins_of 0 2 in
  Transform_elem 0 2 (0 + al m) = Ok (0 + al m) /\
  Transform_elem 0 2 (2 - au m) = Ok (2 - au m) /\
  Transform_elem 0 2 (1851 # 1000) = smooth_upper 2 (au m) (1851 # 1000) /\
  exists v, Transform_elem 0 2 (1851 # 1000) = Ok v /\
    0 <= v - (2 - au m) /\ v - (2 - au m) <= (1851 # 1000) - (2 - au m).
Proof.
  intros m.
  destruct (smoothing_meets_identity_at_edges 0 2 eq_refl)
    as (_ & Hupp & _ & Hel & Heu & _ & _ & _ & _ & _ & Hnear & _).
  fold m in Hupp, Hel, Heu, Hnear.
  split; [exact Hel|]. split; [exact Heu|].
  split; [apply Hupp; vm_compute; reflexivity || discriminate|].
  apply Hnear. split; vm_compute; discriminate.
Defined.

(** C6.  For every policy with a non-empty [lowerBound] and every position
    [(i, j)], the bound index of lines 86 and 89 is
    [(min(i, n_rows - 1), min(j, n_cols - 1))], with [n_rows] and [n_cols]
    those of [lowerBound]: the loop body reads both bounds there, so that
    positions beyond the extent of the bound matrix reuse its last entry.
    Every element of a matrix returned by [Transform] is the element map
    applied with the bounds read at that clamped index, and [Transform]
    does return whenever the element map has a value for every element
    with those bounds - also on a coordinate matrix longer than the
    bounds.  The scalar constructor stores 1x1 bounds, and every element
    then uses that one pair of bounds. *)
Theorem Transform_broadcasts_last_entry :
  (* the index, and what the loop body does with it: unconditionally *)
  (forall (b : BoundaryBoxConstraint) (i j : nat),
     (0 < n_rows (lowerBound b))%nat -> (0 < n_cols (lowerBound b))%nat ->
     dims_size_t (lowerBound b) ->
     let Bi := Nat.min i (n_rows (lowerBound b) - 1) in
     let Bj := Nat.min j (n_cols (lowerBound b) - 1) in
     bound_index i (n_rows (lowerBound b)) = Z.of_nat Bi /\
     bound_index j (n_cols (lowerBound b)) = Z.of_nat Bj /\
     (forall y : mat,
        Transform_cell b i y j
        = do up <- get (upperBound b) Bi Bj ;
          do lo <- get (lowerBound b) Bi Bj ;
          do y0 <- get y i j ;
          do v <- Transform_elem lo up y0 ;
          mat_set y (Z.of_nat i) (Z.of_nat j) v) /\
     (forall v : Q,
        cell_value b i j v
        = do up <- get (upperBound b) Bi Bj ;
          do lo <- get (lowerBound b) Bi Bj ;
          Transform_elem lo up v)) /\
  (* the elements of a returned matrix *)
  (forall (b : BoundaryBoxConstraint) (x y : mat),
     (0 < n_rows (lowerBound b))%nat -> (0 < n_cols (lowerBound b))%nat ->
     dims_size_t (lowerBound b) ->
     mat_wf x -> Transform b x = Ok y ->
     forall i j, (i < n_rows x)%nat -> (j < n_cols x)%nat ->
       let Bi := Nat.min i (n_rows (lowerBound b) - 1) in
       let Bj := Nat.min j (n_cols (lowerBound b) - 1) in
       bound_index i (n_rows (lowerBound b)) = Z.of_nat Bi /\
       bound_index j (n_cols (lowerBound b)) = Z.of_nat Bj /\
       exists lo up v w,
         get (lowerBound b) Bi Bj = Ok lo /\ get (upperBound b) Bi Bj = Ok up /\
         get x i j = Ok v /\ Transform_elem lo up v = Ok w /\ get y i j = Ok w) /\
  (* a matrix is returned *)
  (forall (b : BoundaryBoxConstraint) (x : mat),
     (0 < n_rows (lowerBound b))%nat -> (0 < n_cols (lowerBound b))%nat ->
     dims_size_t (lowerBound b) ->
     mat_wf x ->
     (forall i j v, get x i j = Ok v ->
        exists lo up w,
          get (lowerBound b) (Nat.min i (n_rows (lowerBound b) - 1))
                             (Nat.min j (n_cols (lowerBound b) - 1)) = Ok lo /\
          get (upperBound b) (Nat.min i (n_rows (lowerBound b) - 1))
                             (Nat.min j (n_cols (lowerBound b) - 1)) = Ok up /\
          Transform_elem lo up v = Ok w) ->
     exists y, Transform b x = Ok y) /\
  (* the scalar constructor *)
  (forall (lo up : Q),
     lowerBound (BoundaryBoxConstraint_scalar lo up) = Mat 1 1 [lo] /\
     upperBound (BoundaryBoxConstraint_scalar lo up) = Mat 1 1 [up] /\
     forall i j v,
       bound_index i 1 = 0%Z /\ bound_index j 1 = 0%Z /\
       cell_value (BoundaryBoxConstraint_scalar lo up) i j v
       = Transform_elem lo up v).
Proof.
  split; [|split; [|split]].
  - intros b i j Hr Hc [Hsr Hsc] Bi Bj.
    pose proof (bound_index_min i _ Hr Hsr) as Ei.
    pose proof (bound_index_min j _ Hc Hsc) as Ej.
    fold Bi in Ei. fold Bj in Ej.
    split; [exact Ei|]. split; [exact Ej|]. split.
    + intros y. unfold Transform_cell, get. now rewrite Ei, Ej.
    + intros v. unfold cell_value, get. now rewrite Ei, Ej.
  - intros b x y Hr Hc Hsz Hwf Hy i j Hi Hj Bi Bj.
    destruct Hsz as [Hsr Hsc].
    split; [now apply bound_index_min|]. split; [now apply bound_index_min|].
    destruct (Transform_Ok b x y Hwf Hy) as (_ & _ & _ & Hall).
    destruct (Hall i j Hi Hj) as (v & w & Hv & Hw & Hyij).
    rewrite cell_value_clamped in Hw by (try split; assumption).
    apply bind_Ok in Hw as (up & Hup & Hw). apply bind_Ok in Hw as (lo & Hlo & Hw).
    exists lo, up, v, w. auto.
  - intros b x Hr Hc Hsz Hwf Hall. apply Transform_total; [assumption|].
    intros i j v Hv. destruct (Hall i j v Hv) as (lo & up & w & Hlo & Hup & Hw).
    exists w. rewrite cell_value_clamped by assumption.
    rewrite Hup, Hlo. exact Hw.
  - intros lo up. split; [reflexivity|]. split; [reflexivity|].
    intros i j v.
    split; [rewrite bound_index_min; [lia|lia|easy]|].
    split; [rewrite bound_index_min; [lia|lia|easy]|].
    apply cell_value_scalar.
Qed.

(** Bounds of two rows, [(0, 10)] and [(2, 12)], and a coordinate column of
    four rows: rows 2 and 3 lie beyond the bounds and use their last entry,
    [(10, 12)].  The index of row 3 is 1, and the element returned at row
    3 is the element map with the bounds 10 and 12. *)
Lemma Transform_broadcasts_last_entry_witness :
  let b := BoundaryBoxConstraint_mat (Mat 2 1 [0; 10]) (Mat 2 1 [2; 12]) in
  let x := Mat 4 1 [1; 11; 11; 11] in
  bound_index 3 2 = 1%Z /\ bound_index 0 1 = 0%Z /\
  (forall v, cell_value b 3 0 v
             = do up <- get (upperBound b) 1 0 ;
               do lo <- get (lowerBound b) 1 0 ;
               Transform_elem lo up v) /\
  exists y, Transform b x = Ok y /\
    exists lo up v w,
      get (lowerBound b) 1 0 = Ok lo /\ get (upperBound b) 1 0 = Ok up /\
      get x 3 0 = Ok v /\ Transform_elem lo up v = Ok w /\ get y 3 0 = Ok w.
Proof.
  intros b x.
  assert (Hsz : dims_size_t (lowerBound b)) by (split; vm_compute; discriminate).
  assert (Hr : (0 < n_rows (lowerBound b))%nat) by (simpl; lia).
  assert (Hc : (0 < n_cols (lowerBound b))%nat) by (simpl; lia).
  destruct Transform_broadcasts_last_entry as (Hidx & Helems & _ & _).
  destruct (Hidx b 3%nat 0%nat Hr Hc Hsz) as (Ei & Ej & _ & Hcv).
  split; [exact Ei|]. split; [exact Ej|]. split; [exact Hcv|].
  destruct (Transform b x) as [y|e] eqn:Hy; [|vm_compute in Hy; discriminate].
  exists y. split; [reflexivity|].
  refine (proj2 (proj2 (Helems b x y Hr Hc Hsz eq_refl Hy 3%nat 0%nat _ _)));
    simpl; lia.
Defined.

(** C7, counterexample.  For the default-constructed policy the difference
    of the bounds has no entries: [arma::min] has nothing to return and
    [initialStepSize] yields no multiple of a minimum.  Bounds of different
    sizes cannot be subtracted at all. *)
Lemma initialStepSize_default_no_value :
  initialStepSize BoundaryBoxConstraint_default = Err NoElements /\
  initialStepSize (BoundaryBoxConstraint_mat (Mat 1 2 [0; 0]) (Mat 1 1 [1]))
  = Err SizeMismatch.
Proof. split; reflexivity. Qed.

(** C7, amended.  For every instance whose bound matrices are non-empty
    and of equal dimensions, [initialStepSize] returns 0.3 times the
    minimum over all entries of [upperBound - lowerBound]: a value that is
    below every entry of the difference and equal to one of them. *)
Theorem initialStepSize_spec (b : BoundaryBoxConstraint) :
  mat_wf (upperBound b) -> mat_wf (lowerBound b) ->
  n_rows (upperBound b) = n_rows (lowerBound b) ->
  n_cols (upperBound b) = n_cols (lowerBound b) ->
  (0 < n_rows (lowerBound b))%nat -> (0 < n_cols (lowerBound b))%nat ->
  exists mn,
    initialStepSize b = Ok ((3 # 10) * mn) /\
    (forall i j u l,
       get (upperBound b) i j = Ok u -> get (lowerBound b) i j = Ok l ->
       mn <= u - l) /\
    (exists i j u l,
       get (upperBound b) i j = Ok u /\ get (lowerBound b) i j = Ok l /\
       mn = u - l).
Proof.
  intros Hwu Hwl Hr Hc Hr0 Hc0. unfold initialStepSize.
  destruct (mat_sub (upperBound b) (lowerBound b)) as [d|e] eqn:Ed.
  2:{ unfold mat_sub in Ed. rewrite Hr, Hc, !Nat.eqb_refl in Ed. discriminate. }
  destruct (mat_sub_spec _ _ _ Hwu Hwl Ed) as (Hdr & Hdc & Hwd & Hget).
  cbn [bind].
  destruct (arma_min_min_spec d Hwd) as (mn & -> & Hle & (i & j & Hmn)); [lia|lia|].
  cbn [bind]. exists mn. split; [reflexivity|]. split.
  - intros i' j' u l Hu Hl. apply (Hle i' j'). apply Hget. eauto.
  - apply Hget in Hmn as (u & l & Hu & Hl & E). eauto 8.
Qed.

(** Bounds [(0, 1)] and [(4, 3)]: the differences are 4 and 2. *)
Lemma initialStepSize_spec_witness :
  exists mn,
    initialStepSize (BoundaryBoxConstraint_mat (Mat 2 1 [0; 1]) (Mat 2 1 [4; 3]))
    = Ok ((3 # 10) * mn) /\
    (forall i j u l,
       get (Mat 2 1 [4; 3]) i j = Ok u -> get (Mat 2 1 [0; 1]) i j = Ok l ->
       mn <= u - l) /\
    (exists i j u l,
       get (Mat 2 1 [4; 3]) i j = Ok u /\ get (Mat 2 1 [0; 1]) i j = Ok l /\
       mn = u - l).
Proof.
  apply (initialStepSize_spec
           (BoundaryBoxConstraint_mat (Mat 2 1 [0; 1]) (Mat 2 1 [4; 3])));
    try reflexivity; simpl; lia.
Defined.

(** C8.  The identity policy: [Transform] returns its argument unchanged
    and [initialStepSize] is 1. *)
Theorem EmptyTransformation_contract (x : mat) :
  EmptyTransformation.Transform x = x /\
  EmptyTransformation.initialStepSize = 1.
Proof. split; reflexivity. Qed.

(** C9.  When [lowerBound] is non-empty and [upperBound] is at least as
    large in both dimensions, every access of [Transform] is in bounds: the
    clamped index [(Bi, Bj)], computed from the dimensions of [lowerBound]
    alone, is valid for [lowerBound] and for [upperBound] and both reads
    succeed, the loop counters are valid for the coordinate matrix, and
    [Transform] never stops on an out-of-bounds access.  For a
    default-constructed policy [lowerBound.n_rows - 1] wraps around to
    [SIZE_MAX] and [Transform] of any non-empty matrix accesses out of
    bounds; so does an [upperBound] smaller than [lowerBound], since it is
    indexed by the same [(Bi, Bj)]. *)
Theorem Transform_accesses_in_bounds :
  (forall (b : BoundaryBoxConstraint) (x : mat),
     mat_wf (lowerBound b) -> mat_wf (upperBound b) -> mat_wf x ->
     dims_size_t (lowerBound b) ->
     (0 < n_rows (lowerBound b))%nat -> (0 < n_cols (lowerBound b))%nat ->
     (n_rows (lowerBound b) <= n_rows (upperBound b))%nat ->
     (n_cols (lowerBound b) <= n_cols (upperBound b))%nat ->
     (forall i j, (i < n_rows x)%nat -> (j < n_cols x)%nat ->
        let Bi := bound_index i (n_rows (lowerBound b)) in
        let Bj := bound_index j (n_cols (lowerBound b)) in
        in_bounds (lowerBound b) Bi Bj = true /\
        in_bounds (upperBound b) Bi Bj = true /\
        in_bounds x (Z.of_nat i) (Z.of_nat j) = true /\
        exists lo up v,
          mat_at (lowerBound b) Bi Bj = Ok lo /\
          mat_at (upperBound b) Bi Bj = Ok up /\
          get x i j = Ok v) /\
     Transform b x <> Err OutOfBounds) /\
  bound_index 0 (n_rows (lowerBound BoundaryBoxConstraint_default)) = SIZE_MAX /\
  (forall x : mat, (0 < n_rows x)%nat -> (0 < n_cols x)%nat ->
     Transform BoundaryBoxConstraint_default x = Err OutOfBounds) /\
  Transform (BoundaryBoxConstraint_mat (Mat 1 2 [0; 0]) (Mat 1 1 [1])) (Mat 1 2 [0; 0])
  = Err OutOfBounds.
Proof.
  split; [|split; [reflexivity|split; [exact Transform_default_OutOfBounds|reflexivity]]].
  intros b x Hwl Hwu Hwx Hsz Hr Hc Hur Huc. split.
  - intros i j Hi Hj Bi Bj.
    destruct (bound_accesses_in_bounds b i j Hsz Hr Hc Hur Huc) as [Hbl Hbu].
    fold Bi in Hbl, Hbu. fold Bj in Hbl, Hbu.
    destruct (mat_at_in_bounds _ _ _ Hwl Hbl) as [lo Hlo].
    destruct (mat_at_in_bounds _ _ _ Hwu Hbu) as [up Hup].
    destruct (get_Ok x i j Hwx Hi Hj) as [v Hv].
    split; [exact Hbl|]. split; [exact Hbu|].
    split; [apply in_bounds_nat; auto|]. exists lo, up, v. auto.
  - intros H. apply Transform_Err in H as (i & j & v & _ & _ & _ & He); [|assumption].
    now apply cell_value_no_OutOfBounds in He.
Qed.

(** A 2x1 [lowerBound], a 2x2 [upperBound] and a 3x2 coordinate matrix,
    at the last element [(2, 1)]. *)
Lemma Transform_accesses_in_bounds_witness :
  let b := BoundaryBoxConstraint_mat (Mat 2 1 [0; 0]) (Mat 2 2 [1; 2; 1; 2]) in
  let x := Mat 3 2 [1; 1; 1; 1; 1; 1] in
  (in_bounds (lowerBound b) (bound_index 2 2) (bound_index 1 1) = true /\
   in_bounds (upperBound b) (bound_index 2 2) (bound_index 1 1) = true /\
   in_bounds x 2 1 = true /\
   exists lo up v,
     mat_at (lowerBound b) (bound_index 2 2) (bound_index 1 1) = Ok lo /\
     mat_at (upperBound b) (bound_index 2 2) (bound_index 1 1) = Ok up /\
     get x 2 1 = Ok v) /\
  Transform b x <> Err OutOfBounds.
Proof.
  intros b x.
  assert (Hsz : dims_size_t (lowerBound b)) by (split; vm_compute; discriminate).
  destruct (proj1 Transform_accesses_in_bounds b x) as [Hidx Hrun];
    try reflexivity; try exact Hsz; try (simpl; lia).
  split; [|exact Hrun]. apply (Hidx 2%nat 1%nat); simpl; lia.
Defined.

(** * Further properties of the two policies *)

(** ** The margins *)

(** X1.  For bounds in order, the quantities of lines 91-96 satisfy: both
    margins are non-negative, at most half the width of the box and at most
    a twentieth of [1 + |bound|]; the two margin bands do not overlap; the
    period [r] is the width of the pre-image [[xlow, xup]] and at least
    twice the width of the box. *)
Theorem margins_geometry (lo up : Q) :
  lo <= up ->
  let m := margins_of lo up in
  0 <= al m /\ 0 <= au m /\
  2 * al m <= up - lo /\ 2 * au m <= up - lo /\
  20 * al m <= 1 + Qabs lo /\ 20 * au m <= 1 + Qabs up /\
  lo + al m <= up - au m /\
  xup m - xlow m == r m /\
  2 * (up - lo) <= r m.
Proof.
  intros Hle m. subst m. unfold margins_of. cbn [diff al au xlow xup r].
  pose proof (half_spec (up - lo)) as Hd.
  pose proof (twentieth_spec (1 + Qabs lo)) as Hl.
  pose proof (twentieth_spec (1 + Qabs up)) as Hu.
  pose proof (Qabs_nonneg lo). pose proof (Qabs_nonneg up).
  set (d := (up - lo) / 2) in *.
  set (ml := (1 + Qabs lo) / 20) in *. set (mu := (1 + Qabs up) / 20) in *.
  destruct (std_min_spec d ml) as [[? ->]|[? ->]];
  destruct (std_min_spec d mu) as [[? ->]|[? ->]];
  repeat split; lra.
Qed.

(** The bounds -1 and 3. *)
Lemma margins_geometry_witness :
  let m := margins_of (-1) 3 in
  0 <= al m /\ 0 <= au m /\
  2 * al m <= 3 - -1 /\ 2 * au m <= 3 - -1 /\
  20 * al m <= 1 + Qabs (-1) /\ 20 * au m <= 1 + Qabs 3 /\
  -1 + al m <= 3 - au m /\
  xup m - xlow m == r m /\
  2 * (3 - -1) <= r m.
Proof. apply (margins_geometry (-1) 3). vm_compute. discriminate. Defined.

(** ** Where the element map is defined *)

Lemma boundary_transformation_total (lo up al au y : Q) :
  ~ al == 0 -> ~ au == 0 ->
  exists v, boundary_transformation lo up al au y = Ok v.
Proof.
  intros Hal Hau. unfold boundary_transformation, smooth_lower, smooth_upper.
  case_Qltb.
  - destruct (fdiv_Ok ((y - (lo - al)) * (y - (lo - al)) / 4) al Hal) as (q & -> & _).
    cbn [bind]. eauto.
  - destruct (fdiv_Ok ((y - (up + au)) * (y - (up + au)) / 4) au Hau) as (q & -> & _).
    cbn [bind]. eauto.
  - eauto.
Qed.

(** Within [int] range of the pre-image the element map has a value. *)
Lemma Transform_elem_near (lo up y : Q) :
  lo < up ->
  xlow (margins_of lo up) - y < inject_Z (2 ^ 31) ->
  y - xup (margins_of lo up) < inject_Z (2 ^ 31) ->
  exists v, Transform_elem lo up y = Ok v.
Proof.
  intros Hlt Hfit1 Hfit2. unfold Transform_elem, shift_into_preimage.
  destruct (margins_spec lo up) as (Hd & Hal & Hau & Hpos & Hxl & Hxu & Hr); [lra|].
  destruct (Hpos Hlt) as [Hal0 Hau0].
  set (m := margins_of lo up) in *.
  assert (Hshift : exists y2,
            (do y1 <- shift_up (xlow m) (r m) y ; shift_down (xup m) (r m) y1) = Ok y2).
  { destruct (Qlt_le_dec y (xlow m)) as [Hy|Hy].
    - destruct (shift_up_lands (xlow m) (r m) y Hy Hfit1) as (y1 & -> & H1 & H2); [lra|].
      cbn [bind]. rewrite shift_down_id by lra. eauto.
    - rewrite shift_up_id by assumption. cbn [bind].
      destruct (Qlt_le_dec (xup m) y) as [Hy'|Hy'].
      + destruct (shift_down_lands (xup m) (r m) y Hy' Hfit2) as (y2 & -> & _); [lra|].
        eauto.
      + rewrite shift_down_id by assumption. eauto. }
  destruct Hshift as [y2 Hs].
  destruct (shift_up (xlow m) (r m) y) as [y1|] eqn:E1; [|discriminate].
  cbn [bind] in *. rewrite Hs. cbn [bind].
  apply boundary_transformation_total; lra.
Qed.

(** Beyond it the cast of line 101 or 105 does not fit an [int]. *)
Lemma Transform_elem_far (lo up y : Q) :
  lo <= up ->
  inject_Z (2 ^ 31) <= xlow (margins_of lo up) - y \/
  inject_Z (2 ^ 31) <= y - xup (margins_of lo up) ->
  Transform_elem lo up y = Err IntCastUB.
Proof.
  intros Hle Hfar. unfold Transform_elem, shift_into_preimage.
  destruct (margins_spec lo up Hle) as (Hd & Hal & Hau & _ & Hxl & Hxu & Hr).
  set (m := margins_of lo up) in *.
  assert (H31 : 0 < inject_Z (2 ^ 31)) by reflexivity.
  destruct Hfar as [Hfar|Hfar].
  - unfold shift_up. replace (Qltb y (xlow m)) with true
      by (symmetry; apply Qltb_true; lra).
    now rewrite (to_int_overflow _ Hfar).
  - rewrite shift_up_id by lra. cbn [bind].
    unfold shift_down. replace (Qltb (xup m) y) with true
      by (symmetry; apply Qltb_true; lra).
    now rewrite (to_int_overflow _ Hfar).
Qed.

Lemma Transform_elem_no_DivByZero (lo up y : Q) :
  lo < up -> Transform_elem lo up y <> Err DivByZero.
Proof.
  intros Hlt H.
  destruct (Qlt_le_dec (xlow (margins_of lo up) - y) (inject_Z (2 ^ 31))) as [H1|H1].
  - destruct (Qlt_le_dec (y - xup (margins_of lo up)) (inject_Z (2 ^ 31))) as [H2|H2].
    + destruct (Transform_elem_near lo up y Hlt H1 H2) as [v Hv]. congruence.
    + rewrite Transform_elem_far in H; [discriminate|lra|auto].
  - rewrite Transform_elem_far in H; [discriminate|lra|auto].
Qed.

(** X2.  For bounds [lo < up] the element map never divides by zero, and
    it has a value exactly for the elements less than 2^31 away from the
    pre-image [[xlow, xup]]: farther away the conversion to [int] of line
    101 or 105 is out of range. *)
Theorem Transform_elem_defined_iff (lo up y : Q) :
  lo < up ->
  let m := margins_of lo up in
  ((exists v, Transform_elem lo up y = Ok v) <->
   xlow m - y < inject_Z (2 ^ 31) /\ y - xup m < inject_Z (2 ^ 31)) /\
  (Transform_elem lo up y = Err IntCastUB <->
   inject_Z (2 ^ 31) <= xlow m - y \/ inject_Z (2 ^ 31) <= y - xup m) /\
  Transform_elem lo up y <> Err DivByZero.
Proof.
  intros Hlt m. subst m.
  assert (Hdec : (xlow (margins_of lo up) - y < inject_Z (2 ^ 31) /\
                  y - xup (margins_of lo up) < inject_Z (2 ^ 31)) \/
                 (inject_Z (2 ^ 31) <= xlow (margins_of lo up) - y \/
                  inject_Z (2 ^ 31) <= y - xup (margins_of lo up))).
  { destruct (Qlt_le_dec (xlow (margins_of lo up) - y) (inject_Z (2 ^ 31)));
      destruct (Qlt_le_dec (y - xup (margins_of lo up)) (inject_Z (2 ^ 31))); auto. }
  split; [|split; [|now apply Transform_elem_no_DivByZero]].
  - split.
    + intros [v Hv]. destruct Hdec as [Hnear|Hfar]; [assumption|].
      rewrite Transform_elem_far in Hv; [discriminate|lra|assumption].
    + intros [H1 H2]. now apply Transform_elem_near.
  - split.
    + intros He. destruct Hdec as [[H1 H2]|Hfar]; [|assumption].
      destruct (Transform_elem_near lo up y Hlt H1 H2) as [v Hv]. congruence.
    + intros Hfar. apply Transform_elem_far; [lra|assumption].
Qed.

(** The bounds 0 and 2 and the element 5. *)
Lemma Transform_elem_defined_iff_witness :
  let m := margins_of 0 2 in
  ((exists v, Transform_elem 0 2 5 = Ok v) <->
   xlow m - 5 < inject_Z (2 ^ 31) /\ 5 - xup m < inject_Z (2 ^ 31)) /\
  (Transform_elem 0 2 5 = Err IntCastUB <->
   inject_Z (2 ^ 31) <= xlow m - 5 \/ inject_Z (2 ^ 31) <= 5 - xup m) /\
  Transform_elem 0 2 5 <> Err DivByZero.
Proof. apply (Transform_elem_defined_iff 0 2 5). reflexivity. Defined.

(** ** Values between the reflection points *)

Lemma smooth_lower_value (lo al y v : Q) :
  0 < al -> smooth_lower lo al y = Ok v ->
  4 * al * (v - lo) == (y - (lo - al)) * (y - (lo - al)).
Proof.
  intros Hal. unfold smooth_lower.
  destruct (fdiv_Ok ((y - (lo - al)) * (y - (lo - al)) / 4) al) as (q & -> & Hq);
    [lra|].
  cbn [bind]. intros [= <-].
  pose proof (quarter_spec ((y - (lo - al)) * (y - (lo - al)))) as H4.
  set (s := (y - (lo - al)) * (y - (lo - al)) / 4) in *.
  rewrite <- H4, <- Hq. ring.
Qed.

Lemma smooth_upper_value (up au y v : Q) :
  0 < au -> smooth_upper up au y = Ok v ->
  4 * au * (up - v) == (y - (up + au)) * (y - (up + au)).
Proof.
  intros Hau. unfold smooth_upper.
  destruct (fdiv_Ok ((y - (up + au)) * (y - (up + au)) / 4) au) as (q & -> & Hq);
    [lra|].
  cbn [bind]. intros [= <-].
  pose proof (quarter_spec ((y - (up + au)) * (y - (up + au)))) as H4.
  set (s := (y - (up + au)) * (y - (up + au)) / 4) in *.
  rewrite <- H4, <- Hq. ring.
Qed.

(** X3.  For bounds [lo < up] and an element between the reflection points
    [lo - al] and [up + au], the element map has a value in the box that is
    never farther out than the element: in the lower band the value is at
    or above the element, in the upper band at or below it, and between the
    bands it is the element. *)
Theorem Transform_elem_moves_inward (lo up y : Q) :
  lo < up ->
  let m := margins_of lo up in
  lo - al m <= y <= up + au m ->
  exists v, Transform_elem lo up y = Ok v /\ lo <= v <= up /\
    (y <= lo + al m -> y <= v) /\
    (up - au m <= y -> v <= y) /\
    (lo + al m <= y <= up - au m -> v = y).
Proof.
  intros Hlt m Hy.
  destruct (margins_spec lo up) as (Hd & Hal & Hau & Hpos & _); [lra|].
  destruct (Hpos Hlt) as [Hal0 Hau0]. fold m in Hd, Hal, Hau, Hal0, Hau0.
  rewrite Transform_elem_core by (try lra; exact Hy). fold m.
  unfold boundary_transformation. case_Qltb.
  - destruct (smooth_lower_range lo (al m) y) as (v & Hv & Hv1 & Hv2); try lra.
    pose proof (smooth_lower_value lo (al m) y v Hal0 Hv) as Hq.
    exists v. split; [exact Hv|]. split; [lra|].
    split; [intros _; nra|]. split; intros; lra.
  - destruct (smooth_upper_range up (au m) y) as (v & Hv & Hv1 & Hv2); try lra.
    pose proof (smooth_upper_value up (au m) y v Hau0 Hv) as Hq.
    exists v. split; [exact Hv|]. split; [lra|].
    split; [intros; lra|]. split; [intros _; nra|intros; lra].
  - exists y. split; [reflexivity|]. split; [lra|]. repeat split; intros; lra.
Qed.

(** The bounds 0 and 2 and the element 2.1. *)
Lemma Transform_elem_moves_inward_witness :
  let m := margins_of 0 2 in
  exists v, Transform_elem 0 2 (21 # 10) = Ok v /\ 0 <= v <= 2 /\
    ((21 # 10) <= 0 + al m -> (21 # 10) <= v) /\
    (2 - au m <= (21 # 10) -> v <= (21 # 10)) /\
    (0 + al m <= (21 # 10) <= 2 - au m -> v = (21 # 10)).
Proof.
  apply (Transform_elem_moves_inward 0 2 (21 # 10)); [reflexivity|].
  split; vm_compute; discriminate.
Defined.

(** X4.  For bounds [lo < up] the bounds themselves are not fixed points:
    [lo] is mapped to [lo + al / 4] and [up] to [up - au / 4], while [lo]
    is the value of [lo - al] and [up] that of [up + au].  Applying the
    element map twice to [lo - al] therefore differs from applying it once:
    the map is not idempotent. *)
Theorem Transform_elem_bounds_not_fixed (lo up : Q) :
  lo < up ->
  let m := margins_of lo up in
  (exists v, Transform_elem lo up (lo - al m) = Ok v /\ v == lo) /\
  (exists v, Transform_elem lo up lo = Ok v /\ 4 * (v - lo) == al m /\ lo < v) /\
  (exists v, Transform_elem lo up (up + au m) = Ok v /\ v == up) /\
  (exists v, Transform_elem lo up up = Ok v /\ 4 * (up - v) == au m /\ v < up).
Proof.
  intros Hlt m.
  destruct (margins_spec lo up) as (Hd & Hal & Hau & Hpos & _); [lra|].
  destruct (Hpos Hlt) as [Hal0 Hau0]. fold m in Hd, Hal, Hau, Hal0, Hau0.
  assert (Hlow : forall y, lo - al m <= y -> y < lo + al m ->
            exists v, Transform_elem lo up y = Ok v /\
              4 * al m * (v - lo) == (y - (lo - al m)) * (y - (lo - al m))).
  { intros y H1 H2. rewrite Transform_elem_core by (fold m; lra). fold m.
    unfold boundary_transformation.
    replace (Qltb y (lo + al m)) with true by (symmetry; apply Qltb_true; lra).
    destruct (smooth_lower_range lo (al m) y) as (v & Hv & _); try lra.
    exists v. split; [exact Hv|]. now apply smooth_lower_value. }
  assert (Hupp : forall y, up - au m < y -> y <= up + au m ->
            exists v, Transform_elem lo up y = Ok v /\
              4 * au m * (up - v) == (y - (up + au m)) * (y - (up + au m))).
  { intros y H1 H2. rewrite Transform_elem_core by (fold m; lra). fold m.
    unfold boundary_transformation.
    replace (Qltb y (lo + al m)) with false by (symmetry; apply Qltb_false; lra).
    replace (Qltb (up - au m) y) with true by (symmetry; apply Qltb_true; lra).
    destruct (smooth_upper_range up (au m) y) as (v & Hv & _); try lra.
    exists v. split; [exact Hv|]. now apply smooth_upper_value. }
  repeat split.
  - destruct (Hlow (lo - al m)) as (v & Hv & Hq); try lra.
    exists v. split; [exact Hv|]. nra.
  - destruct (Hlow lo) as (v & Hv & Hq); try lra.
    exists v. split; [exact Hv|]. split; nra.
  - destruct (Hupp (up + au m)) as (v & Hv & Hq); try lra.
    exists v. split; [exact Hv|]. nra.
  - destruct (Hupp up) as (v & Hv & Hq); try lra.
    exists v. split; [exact Hv|]. split; nra.
Qed.

(** The bounds 0 and 2. *)
Lemma Transform_elem_bounds_not_fixed_witness :
  let m := margins_of 0 2 in
  (exists v, Transform_elem 0 2 (0 - al m) = Ok v /\ v == 0) /\
  (exists v, Transform_elem 0 2 0 = Ok v /\ 4 * (v - 0) == al m /\ 0 < v) /\
  (exists v, Transform_elem 0 2 (2 + au m) = Ok v /\ v == 2) /\
  (exists v, Transform_elem 0 2 2 = Ok v /\ 4 * (2 - v) == au m /\ v < 2).
Proof. apply (Transform_elem_bounds_not_fixed 0 2). reflexivity. Defined.

Lemma Transform_elem_core_cases (lo up y : Q) :
  lo < up ->
  let m := margins_of lo up in
  lo - al m <= y <= up + au m ->
  exists v, Transform_elem lo up y = Ok v /\
    ((y < lo + al m /\ lo <= v < lo + al m /\
      4 * al m * (v - lo) == (y - (lo - al m)) * (y - (lo - al m))) \/
     (lo + al m <= y <= up - au m /\ v = y) \/
     (up - au m < y /\ up - au m < v <= up /\
      4 * au m * (up - v) == (y - (up + au m)) * (y - (up + au m)))).
Proof.
  intros Hlt m Hy.
  destruct (margins_spec lo up) as (Hd & Hal & Hau & Hpos & _); [lra|].
  destruct (Hpos Hlt) as [Hal0 Hau0]. fold m in Hd, Hal, Hau, Hal0, Hau0.
  rewrite Transform_elem_core by (try lra; exact Hy). fold m.
  unfold boundary_transformation. case_Qltb.
  - destruct (smooth_lower_range lo (al m) y) as (v & Hv & Hv1 & Hv2); try lra.
    exists v. split; [exact Hv|]. left. repeat split; auto.
    now apply smooth_lower_value.
  - destruct (smooth_upper_range up (au m) y) as (v & Hv & Hv1 & Hv2); try lra.
    exists v. split; [exact Hv|]. right. right. repeat split; auto; try lra.
    now apply smooth_upper_value.
  - exists y. split; [reflexivity|]. right. left. repeat split; lra.
Qed.

(** X5.  For bounds [lo < up] the element map preserves order between the
    reflection points: of two elements of [[lo - al, up + au]] the larger
    has the larger (or the same) value. *)
Theorem Transform_elem_monotone (lo up y1 y2 : Q) :
  lo < up ->
  lo - al (margins_of lo up) <= y1 -> y1 <= y2 ->
  y2 <= up + au (margins_of lo up) ->
  exists v1 v2,
    Transform_elem lo up y1 = Ok v1 /\ Transform_elem lo up y2 = Ok v2 /\
    v1 <= v2.
Proof.
  intros Hlt H1 H12 H2.
  destruct (margins_spec lo up) as (Hd & Hal & Hau & Hpos & _); [lra|].
  destruct (Hpos Hlt) as [Hal0 Hau0].
  destruct (Transform_elem_core_cases lo up y1 Hlt) as (v1 & Hv1 & C1); [lra|].
  destruct (Transform_elem_core_cases lo up y2 Hlt) as (v2 & Hv2 & C2); [lra|].
  exists v1, v2. split; [exact Hv1|]. split; [exact Hv2|].
  set (m := margins_of lo up) in *.
  destruct C1 as [(Hb1 & Hr1 & E1)|[(Hb1 & ->)|(Hb1 & Hr1 & E1)]];
  destruct C2 as [(Hb2 & Hr2 & E2)|[(Hb2 & ->)|(Hb2 & Hr2 & E2)]];
  try lra.
  - assert (Hp : 0 <= (y2 - y1) * ((y2 - (lo - al m)) + (y1 - (lo - al m))))
      by (apply Qmult_le_0_compat; lra).
    nra.
  - assert (Hp : 0 <= (y2 - y1) * (((up + au m) - y2) + ((up + au m) - y1)))
      by (apply Qmult_le_0_compat; lra).
    nra.
Qed.

(** The bounds 0 and 2 and the elements 0.01 and 0.02 of the lower band. *)
Lemma Transform_elem_monotone_witness :
  exists v1 v2,
    Transform_elem 0 2 (1 # 100) = Ok v1 /\ Transform_elem 0 2 (2 # 100) = Ok v2 /\
    v1 <= v2.
Proof.
  apply (Transform_elem_monotone 0 2 (1 # 100) (2 # 100));
    try reflexivity; vm_compute; discriminate.
Defined.

(** X6.  The reflections of lines 107-114 make the element map symmetric
    about the reflection points: an element of the pre-image below
    [lo - al] has the value of its mirror image about [lo - al], and an
    element of the pre-image above [up + au] has the value of its mirror
    image about [up + au]. *)
Theorem Transform_elem_mirror (lo up y : Q) :
  lo <= up ->
  let m := margins_of lo up in
  (xlow m <= y -> y < lo - al m ->
   Transform_elem lo up y = Transform_elem lo up (y + 2 * (lo - al m - y))) /\
  (up + au m < y -> y <= xup m ->
   Transform_elem lo up y = Transform_elem lo up (y - 2 * (y - up - au m))).
Proof.
  intros Hle m.
  destruct (margins_spec lo up Hle) as (Hd & Hal & Hau & _ & Hxl & Hxu & Hr).
  fold m in Hd, Hal, Hau, Hxl, Hxu, Hr.
  split; intros H1 H2.
  - rewrite (Transform_elem_core lo up (y + 2 * (lo - al m - y))) by (fold m; lra).
    unfold Transform_elem, shift_into_preimage. fold m.
    rewrite shift_up_id by lra. cbn [bind].
    rewrite shift_down_id by lra. cbn [bind].
    unfold reflect_lower.
    replace (Qltb y (lo - al m)) with true by (symmetry; apply Qltb_true; lra).
    unfold reflect_upper.
    replace (Qltb (up + au m) (y + 2 * (lo - al m - y))) with false
      by (symmetry; apply Qltb_false; lra).
    reflexivity.
  - rewrite (Transform_elem_core lo up (y - 2 * (y - up - au m))) by (fold m; lra).
    unfold Transform_elem, shift_into_preimage. fold m.
    rewrite shift_up_id by lra. cbn [bind].
    rewrite shift_down_id by lra. cbn [bind].
    unfold reflect_lower.
    replace (Qltb y (lo - al m)) with false by (symmetry; apply Qltb_false; lra).
    unfold reflect_upper.
    replace (Qltb (up + au m) y) with true by (symmetry; apply Qltb_true; lra).
    reflexivity.
Qed.

(** The bounds 0 and 2 and the elements -1 and 3. *)
Lemma Transform_elem_mirror_witness :
  let m := margins_of 0 2 in
  Transform_elem 0 2 (-1) = Transform_elem 0 2 (-1 + 2 * (0 - al m - -1)) /\
  Transform_elem 0 2 3 = Transform_elem 0 2 (3 - 2 * (3 - 2 - au m)).
Proof.
  intros m. destruct (Transform_elem_mirror 0 2 (-1)) as [Hlow _];
    [vm_compute; discriminate|].
  destruct (Transform_elem_mirror 0 2 3) as [_ Hupp]; [vm_compute; discriminate|].
  split; [apply Hlow|apply Hupp]; try reflexivity; vm_compute; discriminate.
Defined.

(** ** The shifts, as written *)

(** X7.  What lines 99-106 do to an element outside the pre-image (period
    [r], not zero; distance below 2^31): the upward shift adds
    [r + k] and the downward shift subtracts [r + k], where [k] is the
    distance to the pre-image truncated to an integer - not a multiple of
    the period.  The result lies within one unit below [xlow + r], resp.
    within one unit above [xup - r]. *)
Theorem shifts_add_period_plus_trunc (r y : Q) :
  ~ r == 0 ->
  (forall xl, y < xl -> xl - y < inject_Z (2 ^ 31) ->
     exists k y', to_int (xl - y) = Ok k /\ shift_up xl r y = Ok y' /\
       inject_Z k <= xl - y < inject_Z k + 1 /\
       y' == y + (r + inject_Z k) /\ xl + r - 1 < y' <= xl + r) /\
  (forall xu, xu < y -> y - xu < inject_Z (2 ^ 31) ->
     exists k y', to_int (y - xu) = Ok k /\ shift_down xu r y = Ok y' /\
       inject_Z k <= y - xu < inject_Z k + 1 /\
       y' == y - (r + inject_Z k) /\ xu - r <= y' < xu - r + 1).
Proof.
  intros Hr. split.
  - intros xl Hy Hfit. unfold shift_up.
    apply Qltb_true in Hy as Hb. rewrite Hb.
    destruct (to_int_nonneg (xl - y)) as (k & Hk & _ & Hk1 & Hk2); [lra|lra|].
    rewrite Hk. cbn [bind].
    destruct (fdiv_Ok (inject_Z k) r Hr) as (q & -> & Hq). cbn [bind].
    exists k, (y + r * (1 + q)). split; [reflexivity|]. split; [reflexivity|].
    assert (E : y + r * (1 + q) == y + (r + inject_Z k)) by (rewrite <- Hq; ring).
    split; [lra|]. split; [exact E|]. rewrite E. lra.
  - intros xu Hy Hfit. unfold shift_down.
    apply Qltb_true in Hy as Hb. rewrite Hb.
    destruct (to_int_nonneg (y - xu)) as (k & Hk & _ & Hk1 & Hk2); [lra|lra|].
    rewrite Hk. cbn [bind].
    destruct (fdiv_Ok (inject_Z k) r Hr) as (q & -> & Hq). cbn [bind].
    exists k, (y - r * (1 + q)). split; [reflexivity|]. split; [reflexivity|].
    assert (E : y - r * (1 + q) == y - (r + inject_Z k)) by (rewrite <- Hq; ring).
    split; [lra|]. split; [exact E|]. rewrite E. lra.
Qed.

(** The period 0.4 and the element -10.1 against [xlow = -0.15]. *)
Lemma shifts_add_period_plus_trunc_witness :
  exists k y', to_int ((-15 # 100) - (-101 # 10)) = Ok k /\
    shift_up (-15 # 100) (4 # 10) (-101 # 10) = Ok y' /\
    inject_Z k <= (-15 # 100) - (-101 # 10) < inject_Z k + 1 /\
    y' == (-101 # 10) + ((4 # 10) + inject_Z k) /\
    (-15 # 100) + (4 # 10) - 1 < y' <= (-15 # 100) + (4 # 10).
Proof.
  refine (proj1 (shifts_add_period_plus_trunc (4 # 10) (-101 # 10) _)
            (-15 # 100) _ _); vm_compute; discriminate || reflexivity.
Defined.

(** ** [Transform] as a map on matrices *)

(** X8.  [Transform] keeps the shape of its argument: a matrix it returns
    has the dimensions of the coordinate matrix, whatever the dimensions of
    the bounds, and as many elements. *)
Theorem Transform_preserves_shape (b : BoundaryBoxConstraint) (x y : mat) :
  mat_wf x -> Transform b x = Ok y ->
  n_rows y = n_rows x /\ n_cols y = n_cols x /\
  length (mem y) = length (mem x) /\ mat_wf y.
Proof.
  intros Hwf Hy.
  destruct (Transform_Ok b x y Hwf Hy) as (Hr & Hc & Hwfy & _).
  repeat split; auto. unfold mat_wf in *. congruence.
Qed.

(** Scalar bounds 0 and 2 and a 2x3 matrix. *)
Lemma Transform_preserves_shape_witness :
  exists y,
    Transform (BoundaryBoxConstraint_scalar 0 2) (Mat 2 3 [1; 2; 3; 4; 5; 6]) = Ok y /\
    n_rows y = 2%nat /\ n_cols y = 3%nat /\ length (mem y) = 6%nat /\ mat_wf y.
Proof.
  eexists. split; [vm_compute; reflexivity|].
  refine (Transform_preserves_shape (BoundaryBoxConstraint_scalar 0 2)
            (Mat 2 3 [1; 2; 3; 4; 5; 6]) _ _ _).
  - reflexivity.
  - vm_compute. reflexivity.
Defined.

(** X9.  [Transform] works element by element: the element it returns at
    [(i, j)] depends on the coordinate matrix only through its element at
    [(i, j)].  Two matrices that agree there give results that agree
    there, whatever their other elements and their dimensions. *)
Theorem Transform_elementwise
    (b : BoundaryBoxConstraint) (x x' y y' : mat) (i j : nat) (v : Q) :
  mat_wf x -> mat_wf x' ->
  Transform b x = Ok y -> Transform b x' = Ok y' ->
  get x i j = Ok v -> get x' i j = Ok v ->
  exists w, get y i j = Ok w /\ get y' i j = Ok w /\ cell_value b i j v = Ok w.
Proof.
  intros Hwf Hwf' Hy Hy' Hv Hv'.
  apply get_Ok_inv in Hv as Hij. destruct Hij as [Hi Hj].
  apply get_Ok_inv in Hv' as Hij'. destruct Hij' as [Hi' Hj'].
  destruct (Transform_Ok b x y Hwf Hy) as (_ & _ & _ & Hall).
  destruct (Transform_Ok b x' y' Hwf' Hy') as (_ & _ & _ & Hall').
  destruct (Hall i j Hi Hj) as (v1 & w1 & Hv1 & Hw1 & Hy1).
  destruct (Hall' i j Hi' Hj') as (v2 & w2 & Hv2 & Hw2 & Hy2).
  assert (v1 = v) by congruence. assert (v2 = v) by congruence. subst v1 v2.
  exists w1. repeat split; auto. congruence.
Qed.

(** Scalar bounds 0 and 2; a 2x1 and a 1x1 matrix that agree at [(0, 0)]. *)
Lemma Transform_elementwise_witness :
  exists y y' w,
    Transform (BoundaryBoxConstraint_scalar 0 2) (Mat 2 1 [3; 7]) = Ok y /\
    Transform (BoundaryBoxConstraint_scalar 0 2) (Mat 1 1 [3]) = Ok y' /\
    get y 0 0 = Ok w /\ get y' 0 0 = Ok w /\
    cell_value (BoundaryBoxConstraint_scalar 0 2) 0 0 3 = Ok w.
Proof.
  destruct (Transform (BoundaryBoxConstraint_scalar 0 2) (Mat 2 1 [3; 7]))
    as [y|e] eqn:H1; [|vm_compute in H1; discriminate].
  destruct (Transform (BoundaryBoxConstraint_scalar 0 2) (Mat 1 1 [3]))
    as [y'|e] eqn:H2; [|vm_compute in H2; discriminate].
  destruct (Transform_elementwise (BoundaryBoxConstraint_scalar 0 2)
              (Mat 2 1 [3; 7]) (Mat 1 1 [3]) y y' 0 0 3
              eq_refl eq_refl H1 H2 eq_refl eq_refl) as (w & Hw).
  exists y, y', w. auto.
Defined.

Lemma cell_index_scalar (lo up : Q) (i j : nat) :
  bound_index i (n_rows (lowerBound (BoundaryBoxConstraint_scalar lo up))) = 0%Z /\
  bound_index j (n_cols (lowerBound (BoundaryBoxConstraint_scalar lo up))) = 0%Z.
Proof.
  cbn [lowerBound BoundaryBoxConstraint_scalar mat_of_list n_rows n_cols length].
  split; (rewrite bound_index_min; [lia|lia|easy]).
Qed.

Lemma cells_empty (rows cols : nat) :
  rows = 0%nat \/ cols = 0%nat -> cells rows cols = [].
Proof.
  intros H. destruct (cells rows cols) as [|[i j] ps] eqn:E; [reflexivity|].
  assert (Hin : (i, j) ∈ cells rows cols) by (rewrite E; left).
  apply elem_of_cells in Hin. lia.
Qed.

(** X10.  On a coordinate matrix without elements (no rows or no columns)
    the loops of [Transform] do not run: the matrix is returned as it is
    and no bound is read, so that even a default-constructed policy
    succeeds. *)
Theorem Transform_empty_input (b : BoundaryBoxConstraint) (x : mat) :
  n_rows x = 0%nat \/ n_cols x = 0%nat -> Transform b x = Ok x.
Proof.
  intros H. rewrite Transform_cells, (cells_empty _ _ H). reflexivity.
Qed.

(** The default-constructed policy and a matrix with three rows and no
    column. *)
Lemma Transform_empty_input_witness :
  Transform BoundaryBoxConstraint_default (Mat 3 0 []) = Ok (Mat 3 0 []).
Proof.
  apply (Transform_empty_input BoundaryBoxConstraint_default (Mat 3 0 [])).
  right. reflexivity.
Defined.

(** X11.  On a coordinate matrix all of whose elements lie in the interior
    band [[lo + al, up - au]] of their bounds, [BoundaryBoxConstraint]'s
    [Transform] returns, and returns what [EmptyTransformation]'s
    [Transform] returns: the matrix itself. *)
Theorem Transform_is_identity_on_interior (b : BoundaryBoxConstraint) (x : mat) :
  mat_wf x ->
  (forall i j v, get x i j = Ok v ->
     exists lo up,
       mat_at (lowerBound b) (bound_index i (n_rows (lowerBound b)))
                             (bound_index j (n_cols (lowerBound b))) = Ok lo /\
       mat_at (upperBound b) (bound_index i (n_rows (lowerBound b)))
                             (bound_index j (n_cols (lowerBound b))) = Ok up /\
       lo <= up /\
       lo + al (margins_of lo up) <= v <= up - au (margins_of lo up)) ->
  Transform b x = Ok (EmptyTransformation.Transform x).
Proof.
  intros Hwf Hall. unfold EmptyTransformation.Transform.
  apply Transform_fixes_interior; [assumption|].
  intros i j v Hv. destruct (Hall i j v Hv) as (lo & up & Hlo & Hup & Hle & Hband).
  unfold cell_value. rewrite Hup, Hlo. cbn [bind].
  now apply Transform_elem_band.
Qed.

(** Scalar bounds 0 and 2 and the column [(1, 3/2)]. *)
Lemma Transform_is_identity_on_interior_witness :
  Transform (BoundaryBoxConstraint_scalar 0 2) (Mat 2 1 [1; 3 # 2])
  = Ok (EmptyTransformation.Transform (Mat 2 1 [1; 3 # 2])).
Proof.
  apply (Transform_is_identity_on_interior
           (BoundaryBoxConstraint_scalar 0 2) (Mat 2 1 [1; 3 # 2])); [reflexivity|].
  intros i j v Hv. exists 0, 2.
  destruct (cell_index_scalar 0 2 i j) as [-> ->].
  split; [reflexivity|]. split; [reflexivity|].
  apply get_lookup in Hv as (Hi & Hj & Hv). cbn [n_rows n_cols mem] in *.
  assert (j = 0)%nat by lia. subst j.
  destruct i as [|[|i]]; [| |lia]; cbn in Hv; injection Hv as <-;
    (split; [vm_compute; discriminate|split; vm_compute; discriminate]).
Defined.

Lemma preimage_contains_box (lo up : Q) :
  lo <= up ->
  xlow (margins_of lo up) <= lo /\ up <= xup (margins_of lo up) /\
  2 * (up - lo) <= r (margins_of lo up).
Proof.
  intros Hle.
  destruct (margins_spec lo up Hle) as (Hd & Hal & Hau & _ & Hxl & Hxu & Hr).
  repeat split; lra.
Qed.

(** X12.  Bounds at least 0.5 apart put the elements in the box.  For a
    policy whose [lowerBound] is non-empty and whose [upperBound] is at
    least as large, with [upper - lower >= 1/2] at every entry, and a
    coordinate matrix whose elements are less than 2^31 away from their
    bounds, [Transform] returns a matrix of the same shape whose every
    element lies within the bounds read at its clamped index. *)
Theorem Transform_in_box_wide_bounds (b : BoundaryBoxConstraint) (x : mat) :
  mat_wf (lowerBound b) -> mat_wf (upperBound b) -> mat_wf x ->
  dims_size_t (lowerBound b) ->
  (0 < n_rows (lowerBound b))%nat -> (0 < n_cols (lowerBound b))%nat ->
  (n_rows (lowerBound b) <= n_rows (upperBound b))%nat ->
  (n_cols (lowerBound b) <= n_cols (upperBound b))%nat ->
  (forall i j lo up,
     get (lowerBound b) i j = Ok lo -> get (upperBound b) i j = Ok up ->
     (1 # 2) <= up - lo) ->
  (forall i j v lo up,
     get x i j = Ok v ->
     get (lowerBound b) (Nat.min i (n_rows (lowerBound b) - 1))
                        (Nat.min j (n_cols (lowerBound b) - 1)) = Ok lo ->
     get (upperBound b) (Nat.min i (n_rows (lowerBound b) - 1))
                        (Nat.min j (n_cols (lowerBound b) - 1)) = Ok up ->
     lo - v < inject_Z (2 ^ 31) /\ v - up < inject_Z (2 ^ 31)) ->
  exists y, Transform b x = Ok y /\
    n_rows y = n_rows x /\ n_cols y = n_cols x /\
    forall i j w, get y i j = Ok w ->
      exists lo up,
        get (lowerBound b) (Nat.min i (n_rows (lowerBound b) - 1))
                           (Nat.min j (n_cols (lowerBound b) - 1)) = Ok lo /\
        get (upperBound b) (Nat.min i (n_rows (lowerBound b) - 1))
                           (Nat.min j (n_cols (lowerBound b) - 1)) = Ok up /\
        lo <= w <= up.
Proof.
  intros Hwl Hwu Hwx Hsz Hr Hc Hur Huc Hwide Hnear.
  assert (Hidx : forall i j,
            bound_index i (n_rows (lowerBound b))
            = Z.of_nat (Nat.min i (n_rows (lowerBound b) - 1)) /\
            bound_index j (n_cols (lowerBound b))
            = Z.of_nat (Nat.min j (n_cols (lowerBound b) - 1))).
  { intros i j. destruct Hsz. split; now apply bound_index_min. }
  destruct (Transform_in_box b x Hwx) as (y & Hy & Hbox).
  - intros i j v Hv.
    destruct (bound_accesses_in_bounds b i j Hsz Hr Hc Hur Huc) as [Hbl Hbu].
    destruct (mat_at_in_bounds _ _ _ Hwl Hbl) as [lo Hlo].
    destruct (mat_at_in_bounds _ _ _ Hwu Hbu) as [up Hup].
    exists lo, up. split; [exact Hlo|]. split; [exact Hup|].
    destruct (Hidx i j) as [Ei Ej]. rewrite Ei, Ej in Hlo, Hup.
    pose proof (Hwide _ _ lo up Hlo Hup) as Hw.
    destruct (Hnear i j v lo up Hv Hlo Hup) as [Hn1 Hn2].
    destruct (preimage_contains_box lo up) as (Hxl & Hxu & Hper); [lra|].
    repeat split; lra.
  - exists y. split; [exact Hy|].
    destruct (Transform_Ok b x y Hwx Hy) as (Hry & Hcy & _ & _).
    split; [exact Hry|]. split; [exact Hcy|].
    intros i j w Hw. destruct (Hbox i j w Hw) as (lo & up & Hlo & Hup & Hin).
    destruct (Hidx i j) as [Ei Ej]. rewrite Ei, Ej in Hlo, Hup.
    exists lo, up. auto.
Qed.

(** Scalar bounds 0 and 2 and the row [(-7, 9)]. *)
Lemma Transform_in_box_wide_bounds_witness :
  exists y, Transform (BoundaryBoxConstraint_scalar 0 2) (Mat 1 2 [-7; 9]) = Ok y /\
    n_rows y = 1%nat /\ n_cols y = 2%nat /\
    forall i j w, get y i j = Ok w ->
      exists lo up,
        get (Mat 1 1 [0]) (Nat.min i (1 - 1)) (Nat.min j (1 - 1)) = Ok lo /\
        get (Mat 1 1 [2]) (Nat.min i (1 - 1)) (Nat.min j (1 - 1)) = Ok up /\
        lo <= w <= up.
Proof.
  apply (Transform_in_box_wide_bounds
           (BoundaryBoxConstraint_scalar 0 2) (Mat 1 2 [-7; 9]));
    try reflexivity; try (simpl; lia).
  - split; vm_compute; discriminate.
  - intros i j lo up Hlo Hup.
    apply get_lookup in Hlo as (Hi & Hj & Hlo). apply get_lookup in Hup as (_ & _ & Hup).
    cbn [lowerBound upperBound BoundaryBoxConstraint_scalar mat_of_list
         n_rows n_cols mem length] in *.
    assert (i = 0)%nat by lia. assert (j = 0)%nat by lia. subst i j.
    cbn in Hlo, Hup. injection Hlo as <-. injection Hup as <-.
    vm_compute. discriminate.
  - intros i j v lo up Hv Hlo Hup.
    cbn [lowerBound upperBound BoundaryBoxConstraint_scalar mat_of_list
         n_rows n_cols mem length] in *.
    replace (Nat.min i (1 - 1)) with 0%nat in * by lia.
    replace (Nat.min j (1 - 1)) with 0%nat in * by lia.
    cbn in Hlo, Hup. injection Hlo as <-. injection Hup as <-.
    apply get_lookup in Hv as (Hi & Hj & Hv). cbn [n_rows n_cols mem] in *.
    assert (i = 0)%nat by lia. subst i.
    destruct j as [|[|j]]; [| |lia]; cbn in Hv; injection Hv as <-;
      (split; vm_compute; reflexivity).
Defined.

(** ** The initial step size, continued *)

Lemma arma_min_vec_cols_Ok (d : mat) :
  (exists s, arma_min_vec (arma_min_cols d) = Ok s) <->
  (0 < n_rows d)%nat /\ (0 < n_cols d)%nat.
Proof.
  unfold arma_min_vec, arma_min_cols.
  destruct (n_rows d =? 0)%nat eqn:Er.
  - apply Nat.eqb_eq in Er. cbn [mem]. split.
    + intros [s Hs]. discriminate.
    + intros [H _]. lia.
  - apply Nat.eqb_neq in Er. cbn [mem].
    destruct (col_min d <$> seq 0 (n_cols d)) as [|c cs] eqn:E.
    + apply (f_equal length) in E. rewrite length_fmap, length_seq in E.
      simpl in E. split; [intros [s Hs]; discriminate|lia].
    + apply (f_equal length) in E. rewrite length_fmap, length_seq in E.
      simpl in E. split; [lia|eauto].
Qed.

Lemma arma_min_vec_cols_Err (d : mat) (e : error) :
  arma_min_vec (arma_min_cols d) = Err e -> e = NoElements.
Proof. unfold arma_min_vec. destruct (mem (arma_min_cols d)); congruence. Qed.

Lemma mat_sub_Ok (a b : mat) :
  (exists d, mat_sub a b = Ok d /\ n_rows d = n_rows a /\ n_cols d = n_cols a) <->
  n_rows a = n_rows b /\ n_cols a = n_cols b.
Proof.
  unfold mat_sub.
  destruct ((n_rows a =? n_rows b)%nat && (n_cols a =? n_cols b)%nat) eqn:E.
  - apply andb_true_iff in E as [Er Ec]. apply Nat.eqb_eq in Er, Ec.
    split; [auto|]. intros _. eexists. repeat split.
  - apply andb_false_iff in E. split.
    + intros (d & Hd & _). discriminate.
    + intros [Er Ec]. destruct E as [E|E]; apply Nat.eqb_neq in E; contradiction.
Qed.

(** X13.  The three outcomes of [initialStepSize], by the shapes of the
    bounds alone: bounds of different dimensions cannot be subtracted;
    bounds of equal dimensions without elements have no minimum; all other
    bounds give a value. *)
Theorem initialStepSize_outcome (b : BoundaryBoxConstraint) :
  let same := n_rows (upperBound b) = n_rows (lowerBound b) /\
              n_cols (upperBound b) = n_cols (lowerBound b) in
  (initialStepSize b = Err SizeMismatch <-> ~ same) /\
  (initialStepSize b = Err NoElements <->
   same /\ (n_rows (lowerBound b) = 0%nat \/ n_cols (lowerBound b) = 0%nat)) /\
  ((exists s, initialStepSize b = Ok s) <->
   same /\ (0 < n_rows (lowerBound b))%nat /\ (0 < n_cols (lowerBound b))%nat).
Proof.
  intros same. subst same. unfold initialStepSize.
  pose proof (mat_sub_Ok (upperBound b) (lowerBound b)) as Hsub.
  destruct (mat_sub (upperBound b) (lowerBound b)) as [d|e] eqn:Ed.
  - assert (Hsame : n_rows (upperBound b) = n_rows (lowerBound b) /\
                    n_cols (upperBound b) = n_cols (lowerBound b)).
    { unfold mat_sub in Ed. destruct (_ && _) eqn:E; [|discriminate].
      apply andb_true_iff in E as [Er Ec]. apply Nat.eqb_eq in Er, Ec. auto. }
    assert (Hd : n_rows d = n_rows (lowerBound b) /\ n_cols d = n_cols (lowerBound b)).
    { unfold mat_sub in Ed. destruct (_ && _); [|discriminate].
      injection Ed as <-. cbn [n_rows n_cols]. tauto. }
    destruct Hd as [Hdr Hdc]. cbn [bind].
    pose proof (arma_min_vec_cols_Ok d) as Hmin. rewrite Hdr, Hdc in Hmin.
    destruct (arma_min_vec (arma_min_cols d)) as [s|e] eqn:Em; cbn [bind].
    + assert (Hne : (0 < n_rows (lowerBound b))%nat /\ (0 < n_cols (lowerBound b))%nat)
        by (apply Hmin; eauto).
      split; [split; [discriminate|tauto]|].
      split; [split; [discriminate|lia]|]. split; [tauto|eauto].
    + apply arma_min_vec_cols_Err in Em as ->.
      assert (Hemp : n_rows (lowerBound b) = 0%nat \/ n_cols (lowerBound b) = 0%nat).
      { destruct (n_rows (lowerBound b)), (n_cols (lowerBound b)); auto.
        assert (Hex : exists s : Q, @Err Q NoElements = Ok s) by (apply Hmin; lia).
        destruct Hex as [s Hs]. discriminate. }
      split; [split; [discriminate|tauto]|].
      split; [tauto|]. split; [intros [s Hs]; discriminate|lia].
  - assert (Hdiff : ~ (n_rows (upperBound b) = n_rows (lowerBound b) /\
                       n_cols (upperBound b) = n_cols (lowerBound b))).
    { intros Hs. apply Hsub in Hs as (d & Hd & _). discriminate. }
    assert (He : e = SizeMismatch).
    { unfold mat_sub in Ed. destruct (_ && _); congruence. }
    subst e. cbn [bind].
    split; [tauto|]. split; [split; [discriminate|tauto]|].
    split; [intros [s Hs]; discriminate|tauto].
Qed.

Lemma initialStepSize_Ok_min (b : BoundaryBoxConstraint) (s : Q) :
  mat_wf (upperBound b) -> mat_wf (lowerBound b) ->
  initialStepSize b = Ok s ->
  n_rows (upperBound b) = n_rows (lowerBound b) /\
  n_cols (upperBound b) = n_cols (lowerBound b) /\
  (0 < n_rows (lowerBound b))%nat /\ (0 < n_cols (lowerBound b))%nat /\
  exists mn, s = (3 # 10) * mn /\
    (forall i j u l,
       get (upperBound b) i j = Ok u -> get (lowerBound b) i j = Ok l ->
       mn <= u - l) /\
    (exists i j u l,
       get (upperBound b) i j = Ok u /\ get (lowerBound b) i j = Ok l /\
       mn = u - l).
Proof.
  intros Hwu Hwl Hs. unfold initialStepSize in Hs.
  apply bind_Ok in Hs as (d & Hd & Hs). apply bind_Ok in Hs as (mn & Hmn & Hs).
  injection Hs as <-.
  destruct (mat_sub_spec _ _ _ Hwu Hwl Hd) as (Hdr & Hdc & Hwd & Hget).
  assert (Hsame : n_rows (upperBound b) = n_rows (lowerBound b) /\
                  n_cols (upperBound b) = n_cols (lowerBound b))
    by (apply mat_sub_Ok; eauto).
  assert (Hne : (0 < n_rows d)%nat /\ (0 < n_cols d)%nat)
    by (apply arma_min_vec_cols_Ok; eauto).
  destruct Hsame as [Hr Hc]. destruct Hne as [Hr0 Hc0].
  repeat split; try lia.
  destruct (arma_min_min_spec d Hwd Hr0 Hc0) as (mn' & Hmn' & Hle & (i & j & Hat)).
  assert (mn' = mn) by congruence. subst mn'.
  exists mn. split; [reflexivity|]. split.
  - intros i' j' u l Hu Hl. apply (Hle i' j'). apply Hget. eauto.
  - apply Hget in Hat as (u & l & Hu & Hl & E). eauto 8.
Qed.

(** X14.  The sign of the initial step size tells whether the box is
    proper: for bounds with a value, [initialStepSize] is positive exactly
    when every upper bound is above its lower bound; one degenerate or
    inverted dimension makes it zero or negative. *)
Theorem initialStepSize_positive_iff (b : BoundaryBoxConstraint) (s : Q) :
  mat_wf (upperBound b) -> mat_wf (lowerBound b) ->
  initialStepSize b = Ok s ->
  (0 < s <->
   forall i j u l,
     get (upperBound b) i j = Ok u -> get (lowerBound b) i j = Ok l -> l < u).
Proof.
  intros Hwu Hwl Hs.
  destruct (initialStepSize_Ok_min b s Hwu Hwl Hs)
    as (_ & _ & _ & _ & mn & -> & Hle & (i & j & u & l & Hu & Hl & E)).
  split.
  - intros Hpos i' j' u' l' Hu' Hl'. specialize (Hle i' j' u' l' Hu' Hl'). lra.
  - intros Hall. specialize (Hall i j u l Hu Hl). subst mn. lra.
Qed.

(** Bounds [(0, 1)] and [(4, 3)]: the step size is 0.3 * 2. *)
Lemma initialStepSize_positive_iff_witness :
  (0 < (3 # 10) * (3 - 1) <->
   forall i j u l,
     get (Mat 2 1 [4; 3]) i j = Ok u -> get (Mat 2 1 [0; 1]) i j = Ok l -> l < u).
Proof.
  apply (initialStepSize_positive_iff
           (BoundaryBoxConstraint_mat (Mat 2 1 [0; 1]) (Mat 2 1 [4; 3])));
    reflexivity.
Defined.

(** X15.  A positive initial step size certifies the policy for
    [Transform]: if [initialStepSize] returns a positive value, then
    [Transform] of any coordinate matrix reads the bounds within their
    dimensions and never divides by zero; the only way it can fail is the
    conversion to [int] of an element 2^31 or more away from its
    pre-image, and it returns whenever every element is less than 2^31
    away from its bounds. *)
Theorem positive_step_size_certifies_Transform
    (b : BoundaryBoxConstraint) (s : Q) (x : mat) :
  mat_wf (upperBound b) -> mat_wf (lowerBound b) -> mat_wf x ->
  dims_size_t (lowerBound b) ->
  initialStepSize b = Ok s -> 0 < s ->
  (forall e, Transform b x = Err e -> e = IntCastUB) /\
  ((forall i j v lo up,
      get x i j = Ok v ->
      get (lowerBound b) (Nat.min i (n_rows (lowerBound b) - 1))
                         (Nat.min j (n_cols (lowerBound b) - 1)) = Ok lo ->
      get (upperBound b) (Nat.min i (n_rows (lowerBound b) - 1))
                         (Nat.min j (n_cols (lowerBound b) - 1)) = Ok up ->
      lo - v < inject_Z (2 ^ 31) /\ v - up < inject_Z (2 ^ 31)) ->
   exists y, Transform b x = Ok y).
Proof.
  intros Hwu Hwl Hwx Hsz Hs Hpos.
  destruct (initialStepSize_Ok_min b s Hwu Hwl Hs)
    as (Hr & Hc & Hr0 & Hc0 & mn & -> & Hle & _).
  assert (Hlt : forall i j u l,
            get (upperBound b) i j = Ok u -> get (lowerBound b) i j = Ok l -> l < u).
  { intros i j u l Hu Hl. specialize (Hle i j u l Hu Hl). lra. }
  assert (Hcell : forall i j v, exists lo up,
            get (lowerBound b) (Nat.min i (n_rows (lowerBound b) - 1))
                               (Nat.min j (n_cols (lowerBound b) - 1)) = Ok lo /\
            get (upperBound b) (Nat.min i (n_rows (lowerBound b) - 1))
                               (Nat.min j (n_cols (lowerBound b) - 1)) = Ok up /\
            lo < up /\ cell_value b i j v = Transform_elem lo up v).
  { intros i j v.
    destruct (get_Ok (lowerBound b) (Nat.min i (n_rows (lowerBound b) - 1))
                (Nat.min j (n_cols (lowerBound b) - 1)) Hwl) as [lo Hlo]; [lia|lia|].
    destruct (get_Ok (upperBound b) (Nat.min i (n_rows (lowerBound b) - 1))
                (Nat.min j (n_cols (lowerBound b) - 1)) Hwu) as [up Hup]; [lia|lia|].
    exists lo, up. split; [exact Hlo|]. split; [exact Hup|].
    split; [exact (Hlt _ _ up lo Hup Hlo)|].
    rewrite cell_value_clamped by assumption. rewrite Hup, Hlo. reflexivity. }
  split.
  - intros e He.
    apply Transform_Err in He as (i & j & v & _ & _ & _ & He); [|assumption].
    destruct (Hcell i j v) as (lo & up & _ & _ & Hlu & Hcv). rewrite Hcv in He.
    destruct (Transform_elem_Err lo up v e He) as [E|E]; subst e; [|reflexivity].
    now apply Transform_elem_no_DivByZero in He.
  - intros Hnear. apply Transform_total; [assumption|].
    intros i j v Hv. destruct (Hcell i j v) as (lo & up & Hlo & Hup & Hlu & ->).
    destruct (Hnear i j v lo up Hv Hlo Hup) as [Hn1 Hn2].
    destruct (preimage_contains_box lo up) as (Hxl & Hxu & _); [lra|].
    apply Transform_elem_near; [assumption|lra|lra].
Qed.

(** Scalar bounds 0 and 0.1, step size 0.03, and the element -10.1. *)
Lemma positive_step_size_certifies_Transform_witness :
  (forall e,
     Transform (BoundaryBoxConstraint_scalar 0 (1 # 10)) (Mat 1 1 [-101 # 10]) = Err e ->
     e = IntCastUB) /\
  ((forall i j v lo up,
      get (Mat 1 1 [-101 # 10]) i j = Ok v ->
      get (Mat 1 1 [0]) (Nat.min i (1 - 1)) (Nat.min j (1 - 1)) = Ok lo ->
      get (Mat 1 1 [1 # 10]) (Nat.min i (1 - 1)) (Nat.min j (1 - 1)) = Ok up ->
      lo - v < inject_Z (2 ^ 31) /\ v - up < inject_Z (2 ^ 31)) ->
   exists y,
     Transform (BoundaryBoxConstraint_scalar 0 (1 # 10)) (Mat 1 1 [-101 # 10]) = Ok y).
Proof.
  apply (positive_step_size_certifies_Transform
           (BoundaryBoxConstraint_scalar 0 (1 # 10))
           ((3 # 10) * ((1 # 10) - 0)) (Mat 1 1 [-101 # 10]));
    try reflexivity.
  split; vm_compute; discriminate.
Defined.

(** X16.  With the scalar constructor the initial step size is 0.3 times
    the width of the box, in every case: positive for [lo < up], zero for
    equal bounds and negative for inverted ones; no error is possible. *)
Theorem initialStepSize_scalar (lo up : Q) :
  initialStepSize (BoundaryBoxConstraint_scalar lo up) = Ok ((3 # 10) * (up - lo)) /\
  (0 < (3 # 10) * (up - lo) <-> lo < up) /\
  ((3 # 10) * (up - lo) == 0 <-> lo == up).
Proof. split; [reflexivity|]. split; split; intros; lra. Qed.

(** ** Witnesses of two earlier properties *)

(** X17 at the bounds 0 and 2 and the element 3 of the pre-image
    [[-1.1, 3.3]]. *)
Lemma Transform_elem_preimage_witness :
  exists v, Transform_elem 0 2 3 = Ok v /\ 0 <= v <= 2.
Proof.
  apply (Transform_elem_preimage 0 2 3); [reflexivity|].
  split; vm_compute; discriminate.
Defined.

(** X18 at the bounds 5 and 5 and the element 2. *)
Lemma Transform_elem_degenerate_div_witness :
  Transform_elem 5 5 2 = Err DivByZero.
Proof.
  apply (Transform_elem_degenerate_div 5 5 2);
    try reflexivity; vm_compute; discriminate.
Defined.
